(** * Nim and its tabular Q-learning agent (src/nim.py)

    A shallow embedding of the classes [Nim] and [NimAI] and of the
    functions [train] and [play], followed by the properties of the
    specification that were checked against them and by further
    properties of the code.

    Modelling choices.
    - Python integers are [Z]; a list of piles is a [list Z]; an action
      [(i, j)] is a pair of integers.
    - Q-values are Python numbers.  Where only their order and their
      truth value matter they are taken as rationals [Q]; Python's [==]
      on numbers is [Qeq] (written [==]), and the truth value of a number
      ([if q_value:]) is "differs from 0".  Where the value computed
      matters, in the module [IEEE], they are Python's own numbers:
      integers of any size and binary64 floats, with the arithmetic,
      the rounding and the OverflowError of the interpreter.
    - A Python set is a [gset]; iterating over it walks [elements].
    - The dictionary [self.q] is a [gmap] keyed by [(tuple(state), action)].
    - Methods that mutate their receiver or may raise are computations
      [M S A]: they take the receiver and give back an outcome together
      with the receiver as the call left it.
    - The module [random] is an oracle: two streams of answers and a
      position in them.
    - The terminal of [play] is the list of what was printed, prompted
      and slept, and the stream of the integers the human types. *)

From Stdlib Require Import ZArith QArith Lia SpecFloat.
From stdpp Require Import gmap strings list fin_maps fin_sets.

Local Open Scope Z_scope.

(** ** Exceptions and computations *)

(** [raise Exception(msg)] and the built-in errors the code can meet. *)
Inductive exn : Type :=
  | Exception (msg : string)
  | IndexError
  | TypeError
  | KeyError
  | OverflowError.

Inductive Res (A : Type) : Type :=
  | Ok (a : A)
  | Raise (e : exn).
Arguments Ok {A} a.
Arguments Raise {A} e.

(** A method call on a receiver of type [S]. *)
Definition M (S A : Type) : Type := S -> Res A * S.

Definition ret {S A : Type} (a : A) : M S A := fun s => (Ok a, s).

Definition raise {S A : Type} (e : exn) : M S A := fun s => (Raise e, s).

Definition bind {S A B : Type} (m : M S A) (k : A -> M S B) : M S B :=
  fun s =>
    match m s with
    | (Ok a, s') => k a s'
    | (Raise e, s') => (Raise e, s')
    end.

Definition gets {S A : Type} (f : S -> A) : M S A := fun s => (Ok (f s), s).

Definition modify {S : Type} (f : S -> S) : M S unit := fun s => (Ok tt, f s).

Declare Scope py_scope.
Delimit Scope py_scope with py.
Notation "x <- m ;; k" := (bind m (fun x => k))
  (at level 100, m at next level, right associativity) : py_scope.
Notation "m ;;; k" := (bind m (fun _ => k))
  (at level 100, right associativity) : py_scope.

(** ** Python lists and ranges *)

(** [len(l)] *)
Definition len {A : Type} (l : list A) : Z := Z.of_nat (length l).

(** [l[i]]: a negative index counts from the end; [None] is IndexError. *)
Definition getitem {A : Type} (l : list A) (i : Z) : option A :=
  if i <? 0 then
    if len l + i <? 0 then None else l !! Z.to_nat (len l + i)
  else l !! Z.to_nat i.

(** [l[i] = x], on an index for which [l[i]] exists. *)
Definition setitem {A : Type} (l : list A) (i : Z) (x : A) : list A :=
  if i <? 0 then <[Z.to_nat (len l + i) := x]> l else <[Z.to_nat i := x]> l.

(** [range(a, b)] *)
Definition range (a b : Z) : list Z := seqZ a (b - a).

(** [sum(l)] *)
Definition sum (l : list Z) : Z := foldr Z.add 0 l.

(** ** class Nim *)

Definition action : Type := Z * Z.

Record Nim : Type := mkNim {
  piles : list Z;
  player : Z;
  winner : option Z
}.

(** [Nim.__init__(self, initial)] *)
Definition Nim_init (initial : list Z) : Nim :=
  {| piles := initial; player := 0; winner := None |}.

Definition default_initial : list Z := [1; 3; 5; 7].

(** [actions.add((i, j))] *)
Definition add_action (i : Z) (actions : gset action) (j : Z) : gset action :=
  actions ∪ {[ (i, j) ]}.

(** The inner loop of [available_actions]:
    [for j in range(1, pile + 1): actions.add((i, j))]. *)
Definition add_pile_actions (i pile : Z) (actions : gset action) : gset action :=
  foldl (add_action i) actions (range 1 (pile + 1)).

(** The outer loop, [for i, pile in enumerate(piles)], from index [i]. *)
Fixpoint available_actions_from (i : Z) (ps : list Z) (actions : gset action)
  : gset action :=
  match ps with
  | [] => actions
  | pile :: rest =>
      available_actions_from (i + 1) rest (add_pile_actions i pile actions)
  end.

(** [Nim.available_actions(piles)] *)
Definition available_actions (ps : list Z) : gset action :=
  available_actions_from 0 ps ∅.

(** [Nim.other_player(player)] *)
Definition other_player (p : Z) : Z := if p =? 1 then 0 else 1.

(** [Nim.switch_player(self)] *)
Definition switch_player : M Nim unit :=
  modify (fun self =>
    {| piles := piles self;
       player := other_player (player self);
       winner := winner self |}).

Definition set_piles (ps : list Z) : M Nim unit :=
  modify (fun self =>
    {| piles := ps; player := player self; winner := winner self |}).

Definition set_winner (w : option Z) : M Nim unit :=
  modify (fun self =>
    {| piles := piles self; player := player self; winner := w |}).

Definition is_None {A : Type} (o : option A) : bool :=
  match o with None => true | Some _ => false end.

(** [all(pile == 0 for pile in piles)] *)
Definition all_zero (ps : list Z) : bool := forallb (fun pile => pile =? 0) ps.

(** [Nim.move(self, action)] *)
Definition move (a : action) : M Nim unit :=
  (let '(pile, count) := a in
   w <- gets winner ;;
   ps <- gets piles ;;
   if negb (is_None w) then raise (Exception "Game already won")
   else if (pile <? 0) || (pile >=? len ps) then raise (Exception "Invalid pile")
   else
     match getitem ps pile with
     | None => raise IndexError
     | Some n =>
         if (count <? 1) || (count >? n)
         then raise (Exception "Invalid number of objects")
         else
           set_piles (setitem ps pile (n - count)) ;;;
           switch_player ;;;
           ps' <- gets piles ;;
           if all_zero ps' then
             p <- gets player ;;
             set_winner (Some p)
           else ret tt
     end)%py.

Arguments move : simpl never.

(** The three ways [move] refuses an action. *)
Definition GameAlreadyWon : exn := Exception "Game already won".
Definition InvalidPile : exn := Exception "Invalid pile".
Definition InvalidCount : exn := Exception "Invalid number of objects".

(** Running a list of moves, stopping at the first one that raises. *)
Fixpoint moves (l : list action) : M Nim unit :=
  match l with
  | [] => ret tt
  | a :: rest => (move a ;;; moves rest)%py
  end.

(** ** The module [random] *)

(** [random.random()] answers with the next element of [draws];
    [random.choice(seq)] uses the next element of [picks] as an index. *)
Record Random : Type := mkRandom {
  draws : nat -> Q;
  picks : nat -> nat;
  pos : nat
}.

Definition advance (r : Random) : Random :=
  {| draws := draws r; picks := picks r; pos := S (pos r) |}.

(** [random.random()] *)
Definition random : M Random Q :=
  fun r => (Ok (draws r (pos r)), advance r).

(** [random.choice(seq)]: IndexError on an empty sequence. *)
Definition choice {A : Type} (l : list A) : M Random A :=
  fun r =>
    match l !! (picks r (pos r) mod length l)%nat with
    | Some x => (Ok x, advance r)
    | None => (Raise IndexError, r)
    end.

(** ** class NimAI *)

(** A key of [self.q] is [(tuple(state), action)]; the action component
    is whatever the caller passed, a pair or [None]. *)
Definition key : Type := list Z * option action.

Record NimAI : Type := mkNimAI {
  q : gmap key Q;
  alpha : Q;
  epsilon : Q
}.

(** [NimAI.__init__(self, alpha, epsilon)] *)
Definition NimAI_init (a e : Q) : NimAI :=
  {| q := ∅; alpha := a; epsilon := e |}.

Definition default_alpha : Q := 1 # 2.
Definition default_epsilon : Q := 1 # 10.

(** The truth value of a number: [if q_value:]. *)
Definition truthy (v : Q) : bool := negb (Qeq_bool v 0).

(** [q_value if q_value else 0], on the answer of [dict.get]. *)
Definition or_zero (q_value : option Q) : Q :=
  match q_value with
  | Some v => if truthy v then v else 0%Q
  | None => 0%Q
  end.

(** [NimAI.get_q_value(self, state, action)] *)
Definition get_q_value (state : list Z) (a : option action) : M NimAI Q :=
  (q_value <- gets (fun self => q self !! (state, a)) ;;
   ret (or_zero q_value))%py.

(** [self.q[k] = v] *)
Definition set_q (k : key) (v : Q) : M NimAI unit :=
  modify (fun self =>
    {| q := <[k := v]> (q self); alpha := alpha self; epsilon := epsilon self |}).

(** [NimAI.update_q_value(self, state, action, old_q, reward, future_rewards)] *)
Definition update_q_value (state : list Z) (a : option action)
    (old_q reward future_rewards : Q) : M NimAI unit :=
  (al <- gets alpha ;;
   let new_q := (old_q + al * ((reward + future_rewards) - old_q))%Q in
   set_q (state, a) new_q)%py.

(** [a > b] on numbers. *)
Definition Qgtb (a b : Q) : bool := negb (Qle_bool a b).

(** [q_value = self.q.get((tuple(state), action))] followed by
    [q_value = q_value if q_value else 0]. *)
Definition q_or_zero (table : gmap key Q) (state : list Z) (a : action) : Q :=
  or_zero (table !! (state, Some a)).

(** One turn of the loop of [best_future_reward]; [best] is
    [best_action_q_value], [None] before the first turn. *)
Definition best_value_step (table : gmap key Q) (state : list Z)
    (best : option Q) (a : action) : option Q :=
  let q_value := q_or_zero table state a in
  match best with
  | None => Some q_value
  | Some b => if Qgtb q_value b then Some q_value else best
  end.

(** [NimAI.best_future_reward(self, state)]; the answer is a number or
    [None], the value [best_action_q_value] starts with. *)
Definition best_future_reward (state : list Z) : M NimAI (option Q) :=
  (let actions := available_actions state in
   if bool_decide (actions = ∅) then ret (Some 0%Q)
   else
     table <- gets q ;;
     ret (foldl (best_value_step table state) None (elements actions)))%py.

(** [NimAI.update(self, old_state, action, new_state, reward)];
    adding [None] to a number is a TypeError. *)
Definition update (old_state : list Z) (a : option action)
    (new_state : list Z) (reward : Q) : M NimAI unit :=
  (old <- get_q_value old_state a ;;
   best_future <- best_future_reward new_state ;;
   match best_future with
   | Some bf => update_q_value old_state a old reward bf
   | None => raise TypeError
   end)%py.

(** One turn of the loop of [choose_action] on the pair
    [(best_action, best_action_q_value)]. *)
Definition best_action_step (table : gmap key Q) (state : list Z)
    (best : option action * option Q) (a : action) : option action * option Q :=
  let q_value := q_or_zero table state a in
  match snd best with
  | None => (Some a, Some q_value)
  | Some b => if Qgtb q_value b then (Some a, Some q_value) else best
  end.

(** [NimAI.choose_action(self, state, epsilon)]; it reads [self] and
    draws from [random]. *)
Definition choose_action (self : NimAI) (state : list Z) (explore : bool)
  : M Random (option action) :=
  (let actions := available_actions state in
   epsilon_probability_random_move <- random ;;
   if explore && Qgtb (epsilon self) epsilon_probability_random_move
   then a <- choice (elements actions) ;; ret (Some a)
   else
     ret (fst (foldl (best_action_step (q self) state) (None, None)
                 (elements actions))))%py.

Arguments update : simpl never.
Arguments choose_action : simpl never.

(** ** class NimAI, on the numbers of the interpreter *)

Module IEEE.

(** binary64: 53 bits of mantissa, infinities at exponent 1024. *)
Definition prec : Z := 53.
Definition emax : Z := 1024.

(** A Python number: an [int] of any size or a [float]. *)
Inductive number : Type :=
  | Int (z : Z)
  | Float (f : spec_float).

(** [float(z)], rounded to nearest, ties to even; an [int] that rounds
    beyond the largest float is an OverflowError. *)
Definition float_of_int (z : Z) : Res spec_float :=
  match binary_normalize prec emax z 0 false with
  | S754_infinity _ => Raise OverflowError
  | f => Ok f
  end.

Definition to_float (x : number) : Res spec_float :=
  match x with
  | Int z => float_of_int z
  | Float f => Ok f
  end.

(** A binary operator: exact on two [int]s, otherwise the operands are
    taken to [float] and the IEEE operation is applied. *)
Definition arith (int_op : Z -> Z -> Z)
    (float_op : spec_float -> spec_float -> spec_float) (x y : number)
  : Res number :=
  match x, y with
  | Int a, Int b => Ok (Int (int_op a b))
  | _, _ =>
      match to_float x, to_float y with
      | Ok fx, Ok fy => Ok (Float (float_op fx fy))
      | Raise e, _ => Raise e
      | _, Raise e => Raise e
      end
  end.

(** [x + y], [x - y], [x * y] *)
Definition add : number -> number -> Res number :=
  arith Z.add (SFadd prec emax).
Definition sub : number -> number -> Res number :=
  arith Z.sub (SFsub prec emax).
Definition mul : number -> number -> Res number :=
  arith Z.mul (SFmul prec emax).

(** The order of an [int] and a [float], compared exactly; [None] when
    the float is not a number. *)
Definition compare_int_float (z : Z) (f : spec_float) : option comparison :=
  match f with
  | S754_nan => None
  | S754_infinity s => Some (if s then Gt else Lt)
  | S754_zero _ => Some (z ?= 0)
  | S754_finite s m e =>
      Some (match e with
            | Zneg k => (z * 2 ^ Zpos k ?= cond_Zopp s (Zpos m))
            | _ => (z ?= cond_Zopp s (Zpos m) * 2 ^ e)
            end)
  end.

Definition compare (x y : number) : option comparison :=
  match x, y with
  | Int a, Int b => Some (a ?= b)
  | Float f, Float g => SFcompare f g
  | Int a, Float g => compare_int_float a g
  | Float f, Int b => option_map CompOpp (compare_int_float b f)
  end.

(** [x > y] and [x == y] *)
Definition gt (x y : number) : bool :=
  match compare x y with Some Gt => true | _ => false end.
Definition eq (x y : number) : bool :=
  match compare x y with Some Eq => true | _ => false end.

(** The truth value of a number: [if q_value:]. *)
Definition truthy (x : number) : bool :=
  match x with
  | Int z => negb (z =? 0)
  | Float (S754_zero _) => false
  | Float _ => true
  end.

Record NimAI : Type := mkNimAI {
  q : gmap key number;
  alpha : number;
  epsilon : number
}.

(** [q_value if q_value else 0], on the answer of [dict.get]. *)
Definition or_zero (q_value : option number) : number :=
  match q_value with
  | Some v => if truthy v then v else Int 0
  | None => Int 0
  end.

(** [NimAI.get_q_value(self, state, action)] *)
Definition get_q_value (state : list Z) (a : option action) : M NimAI number :=
  (q_value <- gets (fun self => q self !! (state, a)) ;;
   ret (or_zero q_value))%py.

(** [self.q[k] = v] *)
Definition set_q (k : key) (v : number) : M NimAI unit :=
  modify (fun self =>
    {| q := <[k := v]> (q self); alpha := alpha self; epsilon := epsilon self |}).

(** The outcome of an operator, in a method. *)
Definition lift {S A : Type} (r : Res A) : M S A := fun s => (r, s).

(** An operation on the outcome of another, which an error skips. *)
Definition and_then {A B : Type} (r : Res A) (k : A -> Res B) : Res B :=
  match r with
  | Ok a => k a
  | Raise e => Raise e
  end.

(** [old_q + self.alpha * ((reward + future_rewards) - old_q)], in the
    order the interpreter evaluates it. *)
Definition new_q_value (al old_q reward future_rewards : number) : Res number :=
  and_then (add reward future_rewards) (fun estimate =>
  and_then (sub estimate old_q) (fun change =>
  and_then (mul al change) (fun step =>
  add old_q step))).

(** [NimAI.update_q_value(self, state, action, old_q, reward, future_rewards)] *)
Definition update_q_value (state : list Z) (a : option action)
    (old_q reward future_rewards : number) : M NimAI unit :=
  (al <- gets alpha ;;
   new_q <- lift (new_q_value al old_q reward future_rewards) ;;
   set_q (state, a) new_q)%py.

(** One turn of the loop of [best_future_reward]. *)
Definition best_value_step (table : gmap key number) (state : list Z)
    (best : option number) (a : action) : option number :=
  let q_value := or_zero (table !! (state, Some a)) in
  match best with
  | None => Some q_value
  | Some b => if gt q_value b then Some q_value else best
  end.

(** [NimAI.best_future_reward(self, state)]; [iteration] is the order in
    which the interpreter walks a set. *)
Definition best_future_reward (iteration : gset action -> list action)
    (state : list Z) : M NimAI (option number) :=
  (let actions := available_actions state in
   if bool_decide (actions = ∅) then ret (Some (Int 0))
   else
     table <- gets q ;;
     ret (foldl (best_value_step table state) None (iteration actions)))%py.

(** [NimAI.update(self, old_state, action, new_state, reward)] *)
Definition update (iteration : gset action -> list action)
    (old_state : list Z) (a : option action) (new_state : list Z)
    (reward : number) : M NimAI unit :=
  (old <- get_q_value old_state a ;;
   best_future <- best_future_reward iteration new_state ;;
   match best_future with
   | Some bf => update_q_value old_state a old reward bf
   | None => raise TypeError
   end)%py.

(** Two numbers that are one value: equal for [==], or both not a
    number. *)
Definition same (x y : number) : Prop :=
  eq x y = true \/ (x = Float S754_nan /\ y = Float S754_nan).

(** [0.5], the default [alpha]; [0.1], the default [epsilon]. *)
Definition half : number := Float (S754_finite false 4503599627370496 (-53)).
Definition tenth : number := Float (S754_finite false 7205759403792794 (-56)).

End IEEE.

(** ** train *)

(** One entry of [last]: [{"state": ..., "action": ...}]. *)
Record Slot : Type := mkSlot {
  slot_state : option (list Z);
  slot_action : option action
}.

(** What [train] prints. *)
Inductive Output : Type :=
  | PlayingTrainingGame (i : Z)
  | DoneTraining.

(** The variables of [train] during a game. *)
Record Frame : Type := mkFrame {
  f_player : NimAI;
  f_game : Nim;
  f_last : gmap Z Slot;
  f_random : Random;
  f_stdout : list Output
}.

Definition with_player {A : Type} (m : M NimAI A) : M Frame A :=
  fun f =>
    let '(r, p) := m (f_player f) in
    (r, {| f_player := p; f_game := f_game f; f_last := f_last f;
           f_random := f_random f; f_stdout := f_stdout f |}).

Definition with_game {A : Type} (m : M Nim A) : M Frame A :=
  fun f =>
    let '(r, g) := m (f_game f) in
    (r, {| f_player := f_player f; f_game := g; f_last := f_last f;
           f_random := f_random f; f_stdout := f_stdout f |}).

Definition with_random {A : Type} (m : M Random A) : M Frame A :=
  fun f =>
    let '(r, rnd) := m (f_random f) in
    (r, {| f_player := f_player f; f_game := f_game f; f_last := f_last f;
           f_random := rnd; f_stdout := f_stdout f |}).

(** [last[p]]: KeyError when [p] is not a key. *)
Definition last_get (p : Z) : M Frame Slot :=
  fun f =>
    match f_last f !! p with
    | Some s => (Ok s, f)
    | None => (Raise KeyError, f)
    end.

Definition last_put (p : Z) (s : Slot) : M Frame unit :=
  modify (fun f =>
    {| f_player := f_player f; f_game := f_game f;
       f_last := <[p := s]> (f_last f);
       f_random := f_random f; f_stdout := f_stdout f |}).

(** [last[p]["state"] = state] *)
Definition last_set_state (p : Z) (state : list Z) : M Frame unit :=
  (s <- last_get p ;;
   last_put p {| slot_state := Some state; slot_action := slot_action s |})%py.

(** [last[p]["action"] = action] *)
Definition last_set_action (p : Z) (a : option action) : M Frame unit :=
  (s <- last_get p ;;
   last_put p {| slot_state := slot_state s; slot_action := a |})%py.

(** [player.update(last[p]["state"], last[p]["action"], new_state, reward)];
    [tuple(None)] is a TypeError. *)
Definition update_last (p : Z) (new_state : list Z) (reward : Q) : M Frame unit :=
  (s <- last_get p ;;
   match slot_state s with
   | Some st => with_player (update st (slot_action s) new_state reward)
   | None => raise TypeError
   end)%py.

(** [game.move(action)]: unpacking [None] is a TypeError. *)
Definition game_move (a : option action) : M Frame unit :=
  match a with
  | Some a' => with_game (move a')
  | None => raise TypeError
  end.

(** The body of [while True]; the answer says whether it ended in [break]. *)
Definition ply : M Frame bool :=
  (state <- gets (fun f => piles (f_game f)) ;;
   self <- gets f_player ;;
   a <- with_random (choose_action self state true) ;;
   p <- gets (fun f => player (f_game f)) ;;
   last_set_state p state ;;;
   last_set_action p a ;;;
   game_move a ;;;
   new_state <- gets (fun f => piles (f_game f)) ;;
   w <- gets (fun f => winner (f_game f)) ;;
   p' <- gets (fun f => player (f_game f)) ;;
   if negb (is_None w) then
     with_player (update state a new_state (-1)%Q) ;;;
     update_last p' new_state 1%Q ;;;
     ret true
   else
     s <- last_get p' ;;
     if negb (is_None (slot_state s)) then
       update_last p' new_state 0%Q ;;;
       ret false
     else ret false)%py.

(** [while True: ...], with a bound on the number of turns; [None] when
    the bound is reached. *)
Fixpoint game_loop (fuel : nat) (f : Frame) : option (Res unit * Frame) :=
  match fuel with
  | O => None
  | S fuel' =>
      match ply f with
      | (Ok true, f') => Some (Ok tt, f')
      | (Ok false, f') => game_loop fuel' f'
      | (Raise e, f') => Some (Raise e, f')
      end
  end.

(** [last = {0: {"state": None, "action": None}, 1: {...}}] *)
Definition empty_slot : Slot := {| slot_state := None; slot_action := None |}.
Definition initial_last : gmap Z Slot := <[0 := empty_slot]> (<[1 := empty_slot]> ∅).

(** What lives across games: [player], [random] and the output. *)
Definition Session : Type := NimAI * Random * list Output.

(** The body of [for i in range(n)]. *)
Definition training_game (fuel : nat) (i : Z) (s : Session)
  : option (Res unit * Session) :=
  let '(p, rnd, out) := s in
  match game_loop fuel
          {| f_player := p;
             f_game := Nim_init default_initial;
             f_last := initial_last;
             f_random := rnd;
             f_stdout := out ++ [PlayingTrainingGame (i + 1)] |} with
  | Some (r, f) => Some (r, (f_player f, f_random f, f_stdout f))
  | None => None
  end.

Fixpoint training_games (fuel : nat) (l : list Z) (s : Session)
  : option (Res unit * Session) :=
  match l with
  | [] => Some (Ok tt, s)
  | i :: rest =>
      match training_game fuel i s with
      | Some (Ok _, s') => training_games fuel rest s'
      | other => other
      end
  end.

(** [train(n)]: the trained player and what was printed, or the
    exception that escaped; [None] when a game did not end within
    [fuel] turns. *)
Definition train (fuel : nat) (n : Z) (rnd : Random)
  : option (Res NimAI * list Output) :=
  match training_games fuel (range 0 n)
          (NimAI_init default_alpha default_epsilon, rnd, []) with
  | Some (Ok _, (p, _, out)) => Some (Ok p, out ++ [DoneTraining])
  | Some (Raise e, (_, _, out)) => Some (Raise e, out)
  | None => None
  end.

(** ** play *)

(** What [play] sends to the terminal, in order: the lines it prints,
    the prompts of [input], and the pauses of [time.sleep]. *)
Inductive Line : Type :=
  | Blank
  | PilesHeader
  | PileLine (i pile : Z)
  | Sleep (seconds : Z)
  | YourTurn
  | Prompt (text : string)
  | InvalidMove
  | AIsTurn
  | AIChose (count pile : Z)
  | GameOver
  | WinnerIs (name : string).

(** The variables of [play] and its terminal.  The human types integers:
    [typed] holds them in order and [read] counts those consumed (a line
    that is not an integer makes [int] raise and is not modelled). *)
Record Table : Type := mkTable {
  t_game : Nim;
  t_random : Random;
  t_typed : nat -> Z;
  t_read : nat;
  t_lines : list Line
}.

(** [print(...)] and [time.sleep(...)] *)
Definition emit (l : Line) : M Table unit :=
  modify (fun t =>
    {| t_game := t_game t; t_random := t_random t; t_typed := t_typed t;
       t_read := t_read t; t_lines := t_lines t ++ [l] |}).

(** [int(input(prompt))] *)
Definition input_int (prompt : string) : M Table Z :=
  (emit (Prompt prompt) ;;;
   fun t =>
     (Ok (t_typed t (t_read t)),
      {| t_game := t_game t; t_random := t_random t; t_typed := t_typed t;
         t_read := S (t_read t); t_lines := t_lines t |}))%py.

Definition on_game {A : Type} (m : M Nim A) : M Table A :=
  fun t =>
    let '(r, g) := m (t_game t) in
    (r, {| t_game := g; t_random := t_random t; t_typed := t_typed t;
           t_read := t_read t; t_lines := t_lines t |}).

Definition on_random {A : Type} (m : M Random A) : M Table A :=
  fun t =>
    let '(r, rnd) := m (t_random t) in
    (r, {| t_game := t_game t; t_random := rnd; t_typed := t_typed t;
           t_read := t_read t; t_lines := t_lines t |}).

(** [random.randint(a, b)] *)
Definition randint (a b : Z) : M Random Z :=
  fun r => (Ok (a + Z.of_nat (picks r (pos r)) mod (b - a + 1)), advance r).

(** [for i, pile in enumerate(piles): print(f"Pile {i}: {pile}")] *)
Fixpoint print_piles (i : Z) (ps : list Z) : M Table unit :=
  match ps with
  | [] => ret tt
  | pile :: rest => (emit (PileLine i pile) ;;; print_piles (i + 1) rest)%py
  end.

(** How a run of a loop of [play] ends: it leaves the loop, it is cut
    after the turns it was given, or the human used up the attempts
    they were given for one move. *)
Inductive Run (A : Type) : Type :=
  | Finished (r : Res A) (t : Table)
  | NoMoreTurns
  | NoLegalInput.
Arguments Finished {A} r t.
Arguments NoMoreTurns {A}.
Arguments NoLegalInput {A}.

(** The inner [while True] of [play], which asks until the move typed is
    one of [available_actions]. *)
Fixpoint human_move (attempts : nat) (available : gset action) (t : Table)
  : Run action :=
  match attempts with
  | O => NoLegalInput
  | S attempts' =>
      match (pile <- input_int "Choose Pile: " ;;
             count <- input_int "Choose Count: " ;;
             if bool_decide ((pile, count) ∈ available)
             then ret (Some (pile, count))
             else emit InvalidMove ;;; ret None)%py t with
      | (Ok (Some a), t') => Finished (Ok a) t'
      | (Ok None, t') => human_move attempts' available t'
      | (Raise e, t') => Finished (Raise e) t'
      end
  end.

(** The AI's branch: [pile, count = ai.choose_action(game.piles,
    epsilon=False)] and the line that tells it; unpacking [None] is a
    TypeError. *)
Definition ai_move (ai : NimAI) : M Table action :=
  (emit AIsTurn ;;;
   ps <- gets (fun t => piles (t_game t)) ;;
   chosen <- on_random (choose_action ai ps false) ;;
   match chosen with
   | Some (pile, count) => emit (AIChose count pile) ;;; ret (pile, count)
   | None => raise TypeError
   end)%py.

(** The end of a turn: [game.move((pile, count))] and the check for a
    winner; the answer says whether [play] returns. *)
Definition finish_turn (human_player : Z) (a : action) : M Table bool :=
  (on_game (move a) ;;;
   w <- gets (fun t => winner (t_game t)) ;;
   match w with
   | Some w' =>
       emit Blank ;;;
       emit GameOver ;;;
       emit (WinnerIs (if w' =? human_player then "Human" else "AI")) ;;;
       ret true
   | None => ret false
   end)%py.

(** The start of a turn: the piles are shown and [play] pauses. *)
Definition show_piles : M Table unit :=
  (emit Blank ;;;
   emit PilesHeader ;;;
   ps <- gets (fun t => piles (t_game t)) ;;
   print_piles 0 ps ;;;
   emit Blank ;;;
   emit (Sleep 1))%py.

(** One turn of the outer [while True] of [play]. *)
Definition play_turn (attempts : nat) (ai : NimAI) (human_player : Z)
    (t : Table) : Run bool :=
  match show_piles t with
  | (Raise e, t1) => Finished (Raise e) t1
  | (Ok _, t1) =>
      let available := available_actions (piles (t_game t1)) in
      let chosen :=
        if player (t_game t1) =? human_player
        then human_move attempts available (snd (emit YourTurn t1))
        else let '(r, t2) := ai_move ai t1 in Finished r t2 in
      match chosen with
      | Finished (Ok a) t2 =>
          let '(r, t3) := finish_turn human_player a t2 in Finished r t3
      | Finished (Raise e) t2 => Finished (Raise e) t2
      | NoMoreTurns => NoMoreTurns
      | NoLegalInput => NoLegalInput
      end
  end.

(** The outer [while True], given [turns] turns. *)
Fixpoint play_loop (turns attempts : nat) (ai : NimAI) (human_player : Z)
    (t : Table) : Run unit :=
  match turns with
  | O => NoMoreTurns
  | S turns' =>
      match play_turn attempts ai human_player t with
      | Finished (Ok true) t' => Finished (Ok tt) t'
      | Finished (Ok false) t' => play_loop turns' attempts ai human_player t'
      | Finished (Raise e) t' => Finished (Raise e) t'
      | NoMoreTurns => NoMoreTurns
      | NoLegalInput => NoLegalInput
      end
  end.

(** [if human_player is None: human_player = random.randint(0, 1)] *)
Definition choose_side (human_player : option Z) : M Random Z :=
  match human_player with
  | None => randint 0 1
  | Some h => ret h
  end.

(** The terminal and the variables of [play] once [game = Nim()] is
    done. *)
Definition new_table (rnd : Random) (typed : nat -> Z) : Table :=
  {| t_game := Nim_init default_initial; t_random := rnd;
     t_typed := typed; t_read := 0; t_lines := [] |}.

(** [play(ai, human_player)], with [human_player] an integer or [None],
    on a terminal where the human will type [typed]. *)
Definition play (turns attempts : nat) (ai : NimAI) (human_player : option Z)
    (rnd : Random) (typed : nat -> Z) : Run unit :=
  match choose_side human_player rnd with
  | (Ok h, rnd') => play_loop turns attempts ai h (new_table rnd' typed)
  | (Raise e, rnd') => Finished (Raise e) (new_table rnd' typed)
  end.

(** * Vocabulary of the statements *)

(** The state a successful [move] leaves. *)
Definition moved (self : Nim) (pile n count : Z) : Nim :=
  let ps := <[Z.to_nat pile := n - count]> (piles self) in
  {| piles := ps;
     player := other_player (player self);
     winner := if all_zero ps then Some (other_player (player self))
               else winner self |}.

Inductive move_spec (self : Nim) (pile count : Z) : Res unit * Nim -> Prop :=
  | move_won w :
      winner self = Some w ->
      move_spec self pile count (Raise GameAlreadyWon, self)
  | move_bad_pile :
      winner self = None -> (pile < 0 \/ len (piles self) <= pile) ->
      move_spec self pile count (Raise InvalidPile, self)
  | move_bad_count n :
      winner self = None -> 0 <= pile < len (piles self) ->
      getitem (piles self) pile = Some n ->
      piles self !! Z.to_nat pile = Some n ->
      (count < 1 \/ n < count) ->
      move_spec self pile count (Raise InvalidCount, self)
  | move_ok n :
      winner self = None -> 0 <= pile < len (piles self) ->
      getitem (piles self) pile = Some n ->
      piles self !! Z.to_nat pile = Some n ->
      1 <= count <= n ->
      move_spec self pile count (Ok tt, moved self pile n count).

(** The number of objects that can still be taken: [max(pile, 0)], summed. *)
Definition objects (ps : list Z) : nat :=
  foldr (fun pile acc => (Z.to_nat pile + acc)%nat) 0%nat ps.

(** A source of randomness that always answers 0. *)
Definition zeros : Random :=
  {| draws := fun _ => 0%Q; picks := fun _ => 0%nat; pos := 0 |}.

(** The variables of [train] when a game starts. *)
Definition fresh_frame (p : NimAI) (rnd : Random) (out : list Output) : Frame :=
  {| f_player := p; f_game := Nim_init default_initial; f_last := initial_last;
     f_random := rnd; f_stdout := out |}.

(** What holds of the variables of [train] at the head of the game
    loop: the game is on, there is an object to take, and the opponent
    of the player to move has a recorded move unless this turn cannot
    end the game. *)
Definition ready (f : Frame) : Prop :=
  winner (f_game f) = None /\
  Forall (fun pile => 0 <= pile) (piles (f_game f)) /\
  ~ Forall (fun pile => pile = 0) (piles (f_game f)) /\
  (player (f_game f) = 0 \/ player (f_game f) = 1) /\
  is_Some (f_last f !! 0) /\ is_Some (f_last f !! 1) /\
  ((exists sl st, f_last f !! other_player (player (f_game f)) = Some sl /\
                  slot_state sl = Some st) \/
   (forall a g', move a (f_game f) = (Ok tt, g') -> winner g' = None)).

(** A position of the game [train] plays: piles between 0 and the
    initial ones. *)
Definition position (st : list Z) : Prop :=
  Forall2 Z.le st default_initial /\ Forall (fun pile => 0 <= pile) st.

(** A key of the table that self-play can produce: a position and an
    action available in it. *)
Definition entry_ok (st : list Z) (a : option action) : Prop :=
  position st /\ exists act, a = Some act /\ act ∈ available_actions st.

Definition table_ok (p : NimAI) : Prop :=
  alpha p = default_alpha /\ epsilon p = default_epsilon /\
  forall st a v, q p !! (st, a) = Some v -> entry_ok st a.

(** The recorded moves are moves of the game: a position and an action
    available in it. *)
Definition slots_ok (last : gmap Z Slot) : Prop :=
  forall p sl st,
    last !! p = Some sl -> slot_state sl = Some st ->
    position st /\
    exists act, slot_action sl = Some act /\ act ∈ available_actions st.

Definition trained (f : Frame) : Prop :=
  ready f /\ table_ok (f_player f) /\ slots_ok (f_last f) /\
  position (piles (f_game f)).

(** The piles that are not empty. *)
Fixpoint heaps (ps : list Z) : nat :=
  match ps with
  | [] => 0
  | p :: rest => ((if Z.eqb p 0 then 0 else 1) + heaps rest)%nat
  end.

(** Game [i + 1] of [train], played from the session [(p, rnd, out)] to
    the session [s']: the game loop, started on a fresh game after the
    announcement, returns; the game it leaves was reached from the
    initial piles by the successful moves [l], at least 4 and at most
    16 of them, each of which used an answer or more of the random
    source; it has a winner and every pile is empty; the table holds the
    last move made, [a] in the position [g0]. *)
Definition game_played (fuel : nat) (i : Z) (p : NimAI) (rnd : Random)
    (out : list Output) (s' : Session) : Prop :=
  exists f' l l0 a g0,
    game_loop fuel (fresh_frame p rnd (out ++ [PlayingTrainingGame (i + 1)]))
    = Some (Ok tt, f') /\
    s' = (f_player f', f_random f', f_stdout f') /\
    f_stdout f' = out ++ [PlayingTrainingGame (i + 1)] /\
    moves l (Nim_init default_initial) = (Ok tt, f_game f') /\
    (4 <= length l <= 16)%nat /\
    (pos rnd + length l <= pos (f_random f'))%nat /\
    winner (f_game f') <> None /\
    Forall (fun pile => pile = 0) (piles (f_game f')) /\
    l = l0 ++ [a] /\
    moves l0 (Nim_init default_initial) = (Ok tt, g0) /\
    is_Some (q (f_player f') !! (piles g0, Some a)).

(** The games of [train] numbered by [l], one after the other. *)
Inductive games_played (fuel : nat) : list Z -> Session -> Session -> Prop :=
  | no_game s : games_played fuel [] s s
  | one_more_game i l p rnd out s1 s2 :
      game_played fuel i p rnd out s1 ->
      games_played fuel l s1 s2 ->
      games_played fuel (i :: l) (p, rnd, out) s2.

(** The table with more lines on its terminal. *)
Definition with_lines (t : Table) (ls : list Line) : Table :=
  {| t_game := t_game t; t_random := t_random t; t_typed := t_typed t;
     t_read := t_read t; t_lines := t_lines t ++ ls |}.

(** The lines that show the piles, numbered from [i]. *)
Fixpoint pile_lines (i : Z) (ps : list Z) : list Line :=
  match ps with
  | [] => []
  | pile :: rest => PileLine i pile :: pile_lines (i + 1) rest
  end.

(** The [k]-th move the human types from the table [t] on. *)
Definition typed_move (t : Table) (k : nat) : action :=
  (t_typed t (t_read t + 2 * k)%nat, t_typed t (t_read t + 2 * k + 1)%nat).

(** What the terminal shows for [k] moves refused. *)
Fixpoint refusals (k : nat) : list Line :=
  match k with
  | O => []
  | S k' =>
      [Prompt "Choose Pile: "; Prompt "Choose Count: "; InvalidMove]
        ++ refusals k'
  end.

(** A game of [play] that is on: no winner, and an object to take. *)
Definition playing (t : Table) : Prop :=
  winner (t_game t) = None /\
  Forall (fun pile => 0 <= pile) (piles (t_game t)) /\
  ~ Forall (fun pile => pile = 0) (piles (t_game t)) /\
  (player (t_game t) = 0 \/ player (t_game t) = 1).

(** The table once the human has typed one move. *)
Definition asked (t : Table) : Table :=
  {| t_game := t_game t; t_random := t_random t; t_typed := t_typed t;
     t_read := S (S (t_read t));
     t_lines := t_lines t ++ [Prompt "Choose Pile: "; Prompt "Choose Count: "] |}.

(** The table once the human has had [k] moves refused and one more
    accepted. *)
Definition answered (t : Table) (k : nat) : Table :=
  {| t_game := t_game t; t_random := t_random t; t_typed := t_typed t;
     t_read := (t_read t + 2 * S k)%nat;
     t_lines := t_lines t ++ refusals k
                  ++ [Prompt "Choose Pile: "; Prompt "Choose Count: "] |}.

(** How [play] leaves the table when it returns: the game is won, every
    pile is empty, and the last lines announce the winner, the human
    when the winner is [human_player]. *)
Definition ended (human_player : Z) (t : Table) : Prop :=
  exists w ls,
    winner (t_game t) = Some w /\ w = player (t_game t) /\
    Forall (fun pile => pile = 0) (piles (t_game t)) /\
    t_lines t
    = ls ++ [Blank; GameOver;
             WinnerIs (if w =? human_player then "Human" else "AI")].

(** A table with one entry, of value 2 to the power -60. *)
Definition tiny_table : IEEE.NimAI :=
  {| IEEE.q := {[ ([1], Some (0, 1)) := IEEE.Float (S754_finite false 4503599627370496 (-112)) ]};
     IEEE.alpha := IEEE.half; IEEE.epsilon := IEEE.tenth |}.

(** A player whose table gives the value 1 to the action [(1, 2)] on
    the piles [[0, 2]], and holds nothing else. *)
Definition favourite : NimAI :=
  {| q := {[ ([0; 2], Some (1, 2)) := 1%Q ]};
     alpha := default_alpha; epsilon := default_epsilon |}.

(** * Properties *)

Example move_1 :
  move (0, 1) (Nim_init [1])
  = (Ok tt, {| piles := [0]; player := 1; winner := Some 1 |}).
Proof. reflexivity. Qed.

Example move_11 :
  moves [(0, 1); (1, 1)] (Nim_init [1; 1])
  = (Ok tt, {| piles := [0; 0]; player := 0; winner := Some 0 |}).
Proof. reflexivity. Qed.

(** ** How [move] unfolds *)

Lemma getitem_in_range {A : Type} (l : list A) (i : Z) :
  0 <= i < len l -> exists x, getitem l i = Some x /\ l !! Z.to_nat i = Some x.
Proof.
  intros Hi. unfold getitem, len in *.
  destruct (Z.ltb_spec i 0) as [Hneg | _]; [lia |].
  destruct (lookup_lt_is_Some_2 l (Z.to_nat i)) as [x Hx]; [lia |].
  exists x. by rewrite Hx.
Qed.

Lemma setitem_in_range {A : Type} (l : list A) (i : Z) (x : A) :
  0 <= i -> setitem l i x = <[Z.to_nat i := x]> l.
Proof.
  intros Hi. unfold setitem. by destruct (Z.ltb_spec i 0); [lia |].
Qed.

Lemma move_cases (self : Nim) (pile count : Z) :
  move_spec self pile count (move (pile, count) self).
Proof.
  unfold move, bind, gets, raise. simpl.
  destruct (winner self) as [w |] eqn:Hw; simpl.
  { by eapply move_won. }
  destruct (Z.ltb_spec pile 0) as [Hneg | Hnn]; simpl.
  { apply move_bad_pile; [done | lia]. }
  destruct (Z.geb_spec pile (len (piles self))) as [Hge | Hlt]; simpl.
  { apply move_bad_pile; [done | lia]. }
  destruct (getitem_in_range (piles self) pile) as (n & Hg & Hl); [lia |].
  rewrite Hg.
  destruct (Z.ltb_spec count 1) as [Hc1 | Hc1]; simpl.
  { eapply move_bad_count; eauto; lia. }
  destruct (Z.gtb_spec count n) as [Hc2 | Hc2]; simpl.
  { eapply move_bad_count; eauto; lia. }
  rewrite setitem_in_range by lia.
  pose proof (move_ok self pile count n Hw (conj Hnn Hlt) Hg Hl (conj Hc1 Hc2)) as Hok.
  unfold moved in Hok. simpl in Hok.
  destruct (all_zero _); simpl; [exact Hok |].
  unfold ret. by rewrite Hw in Hok |- *.
Qed.

Ltac move_inv self pile count :=
  let H := fresh "Hmove" in
  let res := fresh "res" in
  let Hres := fresh "Hres" in
  pose proof (move_cases self pile count) as H;
  remember (move (pile, count) self) as res eqn:Hres in *;
  destruct H; simpl in *.

(** ** A single pile of one object *)

(** C1, as the specification words it, fails: the move succeeds and
    leaves [piles == [0]] with the turn passed to player 1, but the
    winner recorded is not player 0, the player who moved. *)
Lemma move_single_pile_winner_is_not_mover :
  ~ (exists s, move (0, 1) (Nim_init [1]) = (Ok tt, s) /\
               piles s = [0] /\ player (Nim_init [1]) = 0 /\ player s = 1 /\
               winner s = Some 0).
Proof.
  intros (s & Hm & _ & _ & _ & Hw).
  vm_compute in Hm. inversion Hm; subst. discriminate Hw.
Qed.

(** C1 (amended): on a fresh game with piles [[1]], [move((0, 1))]
    succeeds; afterwards [piles == [0]], the current player has switched
    from 0 to 1, and [winner] is the new current player, player 1, the
    opponent of the player who took the last object. *)
Theorem move_single_pile :
  player (Nim_init [1]) = 0 /\
  exists s, move (0, 1) (Nim_init [1]) = (Ok tt, s) /\
            piles s = [0] /\ player s = 1 /\
            winner s = Some (player s) /\
            winner s = Some (other_player (player (Nim_init [1]))).
Proof.
  split; [reflexivity |].
  eexists. split; [reflexivity |]. repeat split.
Qed.

(** ** The errors of [move] *)

(** C5: [move] raises "Game already won" exactly when [winner] is set;
    otherwise it raises "Invalid pile" exactly when the pile index is
    outside [0, len(piles)); otherwise, with [n = piles[pile]], it raises
    "Invalid number of objects" exactly when [count < 1] or [count > n];
    otherwise it succeeds. *)
Theorem move_error_conditions (self : Nim) (pile count : Z) :
  let r := fst (move (pile, count) self) in
  (r = Raise GameAlreadyWon <-> winner self <> None) /\
  (winner self = None ->
     (r = Raise InvalidPile <-> ~ (0 <= pile < len (piles self)))) /\
  (winner self = None -> 0 <= pile < len (piles self) ->
     exists n, getitem (piles self) pile = Some n /\
       (r = Raise InvalidCount <-> (count < 1 \/ count > n)) /\
       (r = Ok tt <-> 1 <= count <= n)).
Proof.
  simpl. move_inv self pile count.
  - repeat split; try congruence; try discriminate.
  - split; [split; [discriminate | congruence] |].
    split; [intros _; split; [lia | done] | lia].
  - split; [split; [discriminate | congruence] |].
    split; [intros _; split; [discriminate | lia] |].
    intros _ _. exists n.
    split; [done |]. split; [split; [lia | done] | split; [discriminate | lia]].
  - split; [split; [discriminate | congruence] |].
    split; [intros _; split; [discriminate | lia] |].
    intros _ _. exists n.
    split; [done |]. split; [split; [discriminate | lia] | split; [lia | done]].
Qed.

Lemma move_error_conditions_witness :
  winner (Nim_init default_initial) = None /\
  0 <= 2 < len (piles (Nim_init default_initial)) /\
  exists n, getitem (piles (Nim_init default_initial)) 2 = Some n /\
    (fst (move (2, 9) (Nim_init default_initial)) = Raise InvalidCount
       <-> (9 < 1 \/ 9 > n)) /\
    (fst (move (2, 9) (Nim_init default_initial)) = Ok tt <-> 1 <= 9 <= n).
Proof.
  assert (Hw : winner (Nim_init default_initial) = None) by reflexivity.
  assert (Hr : 0 <= 2 < len (piles (Nim_init default_initial)))
    by (vm_compute; split; congruence).
  split; [exact Hw |]. split; [exact Hr |].
  exact (proj2 (proj2 (move_error_conditions (Nim_init default_initial) 2 9))
           Hw Hr).
Defined.

(** C10: when [move] raises, whichever the error, the game is as it was
    before the call: [piles], [player] and [winner] are unchanged. *)
Theorem move_error_keeps_state (self self' : Nim) (a : action) (e : exn) :
  move a self = (Raise e, self') ->
  self' = self /\
  piles self' = piles self /\ player self' = player self /\
  winner self' = winner self.
Proof.
  destruct a as [pile count]. intros Hm.
  assert (self' = self) as ->; [| done].
  move_inv self pile count; congruence.
Qed.

Lemma move_error_keeps_state_witness :
  move (7, 1) (Nim_init default_initial)
    = (Raise InvalidPile, Nim_init default_initial) /\
  Nim_init default_initial = Nim_init default_initial.
Proof.
  assert (Hm : move (7, 1) (Nim_init default_initial)
               = (Raise InvalidPile, Nim_init default_initial)) by reflexivity.
  split; [exact Hm |].
  exact (proj1 (move_error_keeps_state _ _ _ _ Hm)).
Defined.

(** ** The available actions *)

Section AvailableActions.

Variable i : Z.

Lemma elem_of_foldl_add (x : action) (js : list Z) (acc : gset action) :
  x ∈ foldl (add_action i) acc js <-> x ∈ acc \/ exists j, j ∈ js /\ x = (i, j).
Proof.
  revert acc. induction js as [| j js IH]; intros acc; simpl.
  - split; [by left | intros [H | (j & Hj & _)]; [done | by inversion Hj]].
  - rewrite IH. unfold add_action. rewrite elem_of_union, elem_of_singleton.
    split.
    + intros [[H | ->] | (j' & Hj' & ->)]; [by left | right .. ].
      * exists j. split; [left | done].
      * exists j'. split; [by right | done].
    + intros [H | (j' & Hj' & ->)]; [by left; left |].
      inversion Hj'; subst; [left; by right | right; eauto].
Qed.

Lemma size_foldl_add (js : list Z) (acc : gset action) :
  NoDup js -> (forall j, j ∈ js -> (i, j) ∉ acc) ->
  size (foldl (add_action i) acc js) = (size acc + length js)%nat.
Proof.
  revert acc. induction js as [| j js IH]; intros acc Hnd Hfresh; simpl.
  - lia.
  - inversion Hnd as [| ? ? Hj Hnd']; subst.
    rewrite IH; [| done |].
    + unfold add_action. rewrite size_union, size_singleton; [lia |].
      apply disjoint_singleton_r, Hfresh. left.
    + intros j' Hj'. unfold add_action.
      rewrite elem_of_union, elem_of_singleton.
      intros [H | H]; [by apply (Hfresh j'); [right |] |].
      inversion H; subst. done.
Qed.

End AvailableActions.

Lemma elem_of_add_pile_actions (i pile : Z) (acc : gset action) (x : action) :
  x ∈ add_pile_actions i pile acc
  <-> x ∈ acc \/ exists j, x = (i, j) /\ 1 <= j <= pile.
Proof.
  unfold add_pile_actions, range. rewrite elem_of_foldl_add.
  split.
  - intros [H | (j & Hj & ->)]; [by left | right; exists j].
    apply elem_of_seqZ in Hj. split; [done | lia].
  - intros [H | (j & -> & Hj)]; [by left | right; exists j].
    split; [| done]. apply elem_of_seqZ. lia.
Qed.

Lemma size_add_pile_actions (i pile : Z) (acc : gset action) :
  (forall j, (i, j) ∉ acc) ->
  size (add_pile_actions i pile acc) = (size acc + Z.to_nat pile)%nat.
Proof.
  intros Hfresh. unfold add_pile_actions, range.
  rewrite size_foldl_add; [| apply NoDup_seqZ | by intros j _].
  rewrite length_seqZ. f_equal. lia.
Qed.

Lemma elem_of_available_actions_from (ps : list Z) (k : Z) (acc : gset action)
    (x : action) :
  x ∈ available_actions_from k ps acc
  <-> x ∈ acc \/
      exists (n : nat) (p j : Z),
        ps !! n = Some p /\ x = (k + Z.of_nat n, j) /\ 1 <= j <= p.
Proof.
  revert k acc. induction ps as [| pile rest IH]; intros k acc; simpl.
  - split; [by left | intros [H | (n & p & j & Hn & _)]; [done |]].
    by rewrite lookup_nil in Hn.
  - rewrite IH, elem_of_add_pile_actions. split.
    + intros [[H | (j & -> & Hj)] | (n & p & j & Hn & -> & Hj)].
      * by left.
      * right. exists 0%nat, pile, j. simpl. repeat split; try lia.
        f_equal. lia.
      * right. exists (S n), p, j. simpl. repeat split; try done; try lia.
        f_equal. lia.
    + intros [H | (n & p & j & Hn & -> & Hj)]; [by left; left |].
      destruct n as [| n]; simpl in Hn.
      * inversion Hn; subst. left. right. exists j. split; [f_equal; lia | done].
      * right. exists n, p, j. repeat split; try done; try lia. f_equal. lia.
Qed.

Lemma size_available_actions_from (ps : list Z) (k : Z) (acc : gset action) :
  (forall i j, (i, j) ∈ acc -> i < k) ->
  size (available_actions_from k ps acc) = (size acc + objects ps)%nat.
Proof.
  revert k acc. induction ps as [| pile rest IH]; intros k acc Hlow; simpl.
  - lia.
  - rewrite (IH (k + 1)).
    + rewrite size_add_pile_actions; [lia |].
      intros j Hj. apply Hlow in Hj. lia.
    + intros i j. rewrite elem_of_add_pile_actions.
      intros [H | (j' & Heq & _)]; [apply Hlow in H; lia |].
      inversion Heq; subst. lia.
Qed.

Lemma objects_nonneg (ps : list Z) :
  Forall (fun pile => 0 <= pile) ps -> Z.of_nat (objects ps) = sum ps.
Proof.
  induction 1 as [| pile rest Hp _ IH]; [done |].
  unfold sum in *. cbn [objects foldr]. fold (objects rest). lia.
Qed.

Lemma elem_of_available_actions (ps : list Z) (i j : Z) :
  (i, j) ∈ available_actions ps
  <-> 0 <= i < len ps /\ exists n, getitem ps i = Some n /\ 1 <= j <= n.
Proof.
  unfold available_actions. rewrite elem_of_available_actions_from. split.
  - intros [H | (n & p & j' & Hn & Heq & Hj)]; [by apply not_elem_of_empty in H |].
    inversion Heq; subst.
    pose proof (lookup_lt_Some _ _ _ Hn) as Hlt.
    assert (Hr : 0 <= 0 + Z.of_nat n < len ps) by (unfold len; lia).
    split; [done |].
    destruct (getitem_in_range ps _ Hr) as (x & Hg & Hl).
    exists x. split; [done |].
    replace (Z.to_nat (0 + Z.of_nat n)) with n in Hl by lia. congruence.
  - intros (Hr & n & Hg & Hj). right.
    destruct (getitem_in_range ps _ Hr) as (x & Hg' & Hl).
    exists (Z.to_nat i), n, j. repeat split; try lia; [congruence | f_equal; lia].
Qed.

Lemma available_actions_all_zero (ps : list Z) :
  Forall (fun pile => pile = 0) ps -> available_actions ps = ∅.
Proof.
  intros Hz. apply set_eq. intros [i j].
  rewrite elem_of_available_actions. split; [| by intros H%not_elem_of_empty].
  intros (Hr & n & Hg & Hj).
  destruct (getitem_in_range ps _ Hr) as (x & Hg' & Hl).
  rewrite Forall_lookup in Hz. apply Hz in Hl. simplify_eq. lia.
Qed.

Lemma size_available_actions (ps : list Z) :
  Forall (fun pile => 0 <= pile) ps ->
  Z.of_nat (size (available_actions ps)) = sum ps.
Proof.
  intros Hnn. unfold available_actions. rewrite size_available_actions_from.
  - rewrite size_empty. simpl. by apply objects_nonneg.
  - intros i j H. by apply not_elem_of_empty in H.
Qed.

(** C7: for a list [p] of non-negative piles, [available_actions(p)] holds
    exactly the pairs [(i, j)] with [0 <= i < len(p)] and
    [1 <= j <= p[i]]; it has [sum(p)] elements; it is empty when every
    pile is 0. *)
Theorem available_actions_spec (p : list Z) :
  Forall (fun pile => 0 <= pile) p ->
  (forall i j, (i, j) ∈ available_actions p
     <-> 0 <= i < len p /\ exists n, getitem p i = Some n /\ 1 <= j <= n) /\
  Z.of_nat (size (available_actions p)) = sum p /\
  (Forall (fun pile => pile = 0) p -> available_actions p = ∅).
Proof.
  intros Hnn. split; [apply elem_of_available_actions |].
  split; [by apply size_available_actions | apply available_actions_all_zero].
Qed.

Lemma available_actions_spec_witness :
  Forall (fun pile => 0 <= pile) default_initial /\
  Z.of_nat (size (available_actions default_initial)) = sum default_initial.
Proof.
  assert (H : Forall (fun pile => 0 <= pile) default_initial)
    by (repeat constructor; lia).
  split; [exact H |].
  exact (proj1 (proj2 (available_actions_spec default_initial H))).
Defined.

(** ** The game invariant *)

Lemma all_zero_Forall (ps : list Z) :
  all_zero ps = true <-> Forall (fun pile => pile = 0) ps.
Proof.
  unfold all_zero. rewrite forallb_forall, Forall_forall.
  split; intros H x Hx.
  - apply list_elem_of_In in Hx. apply H in Hx. lia.
  - apply list_elem_of_In in Hx. apply H in Hx. lia.
Qed.

Lemma move_ok_inv (self s' : Nim) (a : action) :
  move a self = (Ok tt, s') ->
  exists pile count n,
    a = (pile, count) /\ winner self = None /\ 0 <= pile /\
    piles self !! Z.to_nat pile = Some n /\ 1 <= count <= n /\
    s' = moved self pile n count.
Proof.
  destruct a as [pile count]. intros Hm.
  move_inv self pile count; try discriminate.
  exists pile, count, n. inversion Hm; subst. repeat split; try done; lia.
Qed.

Lemma sum_insert (ps : list Z) (i : nat) (n m : Z) :
  ps !! i = Some n -> sum (<[i := m]> ps) = sum ps - n + m.
Proof.
  revert i. induction ps as [| p ps IH]; intros [| i] H; simpl in *;
    try discriminate.
  - inversion H; subst. unfold sum. simpl. lia.
  - apply IH in H. unfold sum in *. simpl. lia.
Qed.

Lemma insert_le (ps : list Z) (i : nat) (n m : Z) :
  ps !! i = Some n -> m <= n -> Forall2 Z.le (<[i := m]> ps) ps.
Proof.
  intros Hi Hle. rewrite <- (list_insert_id ps i n Hi) at 2.
  apply Forall2_insert; [| done].
  apply Forall_Forall2_diag, Forall_forall. intros; lia.
Qed.

Lemma insert_nonneg (ps : list Z) (i : nat) (m : Z) :
  Forall (fun pile => 0 <= pile) ps -> 0 <= m ->
  Forall (fun pile => 0 <= pile) (<[i := m]> ps).
Proof. intros Hps Hm. by apply Forall_insert. Qed.

(** What one successful move does to the game. *)
Lemma move_ok_effect (self s' : Nim) (a : action) :
  move a self = (Ok tt, s') ->
  winner self = None /\
  (winner s' <> None <-> Forall (fun pile => pile = 0) (piles s')) /\
  Forall2 Z.le (piles s') (piles self) /\
  sum (piles s') < sum (piles self) /\
  (Forall (fun pile => 0 <= pile) (piles self) ->
   Forall (fun pile => 0 <= pile) (piles s')) /\
  player s' = other_player (player self) /\
  (forall w, winner s' = Some w -> w = player s').
Proof.
  intros (pile & count & n & -> & Hw & Hp & Hl & Hc & ->)%move_ok_inv.
  split; [done |]. unfold moved. simpl.
  split.
  { rewrite <- all_zero_Forall. destruct (all_zero _); [done |].
    rewrite Hw. split; [done | discriminate]. }
  split; [eapply insert_le; eauto; lia |].
  split; [rewrite (sum_insert _ _ n) by done; lia |].
  split; [intros Hnn; apply insert_nonneg; [done | lia] |].
  split; [done |].
  intros w. destruct (all_zero _); [congruence |]. by rewrite Hw.
Qed.

Lemma moves_cons (a : action) (l : list action) (s s' : Nim) :
  moves (a :: l) s = (Ok tt, s') ->
  exists s1, move a s = (Ok tt, s1) /\ moves l s1 = (Ok tt, s').
Proof.
  simpl. unfold bind. destruct (move a s) as [[[] | e] s1]; [eauto | discriminate].
Qed.

Lemma moves_invariant (l : list action) (s s' : Nim) :
  moves l s = (Ok tt, s') ->
  (l <> [] \/ (winner s <> None <-> Forall (fun pile => pile = 0) (piles s))) ->
  Forall (fun pile => 0 <= pile) (piles s) ->
  (winner s' <> None <-> Forall (fun pile => pile = 0) (piles s')) /\
  Forall2 Z.le (piles s') (piles s) /\
  Forall (fun pile => 0 <= pile) (piles s').
Proof.
  revert s. induction l as [| a l IH]; intros s Hm Hor Hnn.
  - inversion Hm; subst. destruct Hor as [? | Hiff]; [done |].
    split; [done |]. split; [| done].
    apply Forall_Forall2_diag, Forall_forall. intros; lia.
  - apply moves_cons in Hm as (s1 & Hm1 & Hm).
    apply move_ok_effect in Hm1 as (_ & Hiff & Hle & _ & Hnn1 & _).
    destruct (IH s1 Hm (or_intror Hiff) (Hnn1 Hnn)) as (H1 & H2 & H3).
    split; [done |]. split; [| done].
    eapply Forall2_trans; [| exact H2 | exact Hle]. intros; lia.
Qed.

(** C3, as the specification words it, fails on a game constructed with
    no object to take: every pile is 0 and no winner is set. *)
Lemma fresh_empty_game_has_no_winner :
  Forall (fun pile => 0 <= pile) [0] /\
  moves [] (Nim_init [0]) = (Ok tt, Nim_init [0]) /\
  ~ (winner (Nim_init [0]) <> None
     <-> Forall (fun pile => pile = 0) (piles (Nim_init [0]))).
Proof.
  split; [repeat constructor; lia |]. split; [reflexivity |].
  simpl. intros [_ H]. apply H; [repeat constructor | reflexivity].
Qed.

(** C3 (amended): in every game constructed from a non-negative list of
    piles and played through any sequence of successful moves,
    - if [winner] is set then every pile is 0;
    - if every pile is 0 then [winner] is set, provided a move was made
      or the initial piles were not all 0;
    - once [winner] is set every [move] raises "Game already won" and
      there is no available action;
    - the piles stay non-negative and are pointwise at most the initial
      ones, and a further successful move leaves every pile at most what
      it was and the total strictly smaller. *)
Theorem game_invariant (initial : list Z) (l : list action) (s : Nim) :
  Forall (fun pile => 0 <= pile) initial ->
  moves l (Nim_init initial) = (Ok tt, s) ->
  (winner s <> None -> Forall (fun pile => pile = 0) (piles s)) /\
  (l <> [] \/ ~ Forall (fun pile => pile = 0) initial ->
   Forall (fun pile => pile = 0) (piles s) -> winner s <> None) /\
  (winner s <> None ->
   (forall a, move a s = (Raise GameAlreadyWon, s)) /\
   available_actions (piles s) = ∅) /\
  Forall (fun pile => 0 <= pile) (piles s) /\
  Forall2 Z.le (piles s) initial /\
  (forall a s', move a s = (Ok tt, s') ->
     Forall2 Z.le (piles s') (piles s) /\ sum (piles s') < sum (piles s)).
Proof.
  intros Hnn Hm.
  assert (Hinit : l <> [] \/ ~ Forall (fun pile => pile = 0) initial ->
          (winner s <> None <-> Forall (fun pile => pile = 0) (piles s)) /\
          Forall2 Z.le (piles s) initial /\
          Forall (fun pile => 0 <= pile) (piles s)).
  { intros Hor. apply (moves_invariant l (Nim_init initial) s Hm); [| done].
    destruct Hor as [? | Hnz]; [by left | right]. simpl. split; [done | tauto]. }
  assert (Hset : winner s <> None -> Forall (fun pile => pile = 0) (piles s)).
  { intros Hw. destruct l as [| a l].
    - inversion Hm; subst. done.
    - apply Hinit; [by left | done]. }
  assert (Hrest : Forall (fun pile => 0 <= pile) (piles s) /\
                  Forall2 Z.le (piles s) initial).
  { destruct l as [| a l].
    - inversion Hm; subst. simpl. split; [done |].
      apply Forall_Forall2_diag, Forall_forall. intros; lia.
    - destruct Hinit as (_ & ? & ?); [by left | done]. }
  split; [exact Hset |].
  split; [intros Hor; by apply Hinit |].
  split.
  { intros Hw. split; [| by apply available_actions_all_zero, Hset].
    intros [pile count]. move_inv s pile count; congruence. }
  split; [apply Hrest |]. split; [apply Hrest |].
  intros a s' Hm'. apply move_ok_effect in Hm'. tauto.
Qed.

Lemma game_invariant_witness :
  Forall (fun pile => 0 <= pile) [1; 1] /\
  moves [(0, 1); (1, 1)] (Nim_init [1; 1])
    = (Ok tt, {| piles := [0; 0]; player := 0; winner := Some 0 |}) /\
  Forall (fun pile => pile = 0) [0; 0].
Proof.
  assert (Hnn : Forall (fun pile => 0 <= pile) [1; 1])
    by (repeat constructor; lia).
  assert (Hm : moves [(0, 1); (1, 1)] (Nim_init [1; 1])
               = (Ok tt, {| piles := [0; 0]; player := 0; winner := Some 0 |}))
    by reflexivity.
  split; [exact Hnn |]. split; [exact Hm |].
  apply (proj1 (game_invariant [1; 1] [(0, 1); (1, 1)] _ Hnn Hm)).
  simpl. discriminate.
Defined.

(** ** The table of Q-values *)

Lemma truthy_false (v : Q) : truthy v = false <-> (v == 0)%Q.
Proof.
  unfold truthy. rewrite negb_false_iff. apply Qeq_bool_iff.
Qed.

Lemma or_zero_Some (v : Q) :
  (or_zero (Some v) == v)%Q /\ (~ (v == 0)%Q -> or_zero (Some v) = v).
Proof.
  simpl. destruct (truthy v) eqn:Ht.
  - split; [reflexivity | done].
  - apply truthy_false in Ht. split; [by symmetry | done].
Qed.

Lemma get_q_value_eq (self : NimAI) (state : list Z) (a : option action) :
  get_q_value state a self = (Ok (or_zero (q self !! (state, a))), self).
Proof. reflexivity. Qed.

Lemma update_q_value_eq (self : NimAI) (state : list Z) (a : option action)
    (old_q reward future : Q) :
  update_q_value state a old_q reward future self
  = (Ok tt,
     {| q := <[(state, a) := (old_q + alpha self * ((reward + future) - old_q))%Q]>
               (q self);
        alpha := alpha self;
        epsilon := epsilon self |}).
Proof. reflexivity. Qed.

(** C8: on an empty table [get_q_value] answers 0 for every key; after
    [self.q[(s, a)] = v] (as [update_q_value] does for the value it
    computes) [get_q_value(s, a)] answers a number equal to [v], and [v]
    itself when [v] is not 0; [get_q_value] leaves the table as it was,
    also when it answers 0 for a key that is absent. *)
Theorem q_table_get_set (self : NimAI) (s : list Z) (a : option action) (v : Q) :
  (forall al ep,
     get_q_value s a (NimAI_init al ep) = (Ok 0%Q, NimAI_init al ep)) /\
  (exists self' r,
     set_q (s, a) v self = (Ok tt, self') /\
     get_q_value s a self' = (Ok r, self') /\
     (r == v)%Q /\ (~ (v == 0)%Q -> r = v)) /\
  (forall old_q reward future, exists self' r,
     update_q_value s a old_q reward future self = (Ok tt, self') /\
     get_q_value s a self' = (Ok r, self') /\
     (r == old_q + alpha self * ((reward + future) - old_q))%Q) /\
  (exists r, get_q_value s a self = (Ok r, self)) /\
  (q self !! (s, a) = None -> get_q_value s a self = (Ok 0%Q, self)).
Proof.
  split; [intros al ep; reflexivity |].
  split.
  { eexists _, _. split; [reflexivity |]. rewrite get_q_value_eq. simpl.
    rewrite lookup_insert_eq. split; [reflexivity |]. apply or_zero_Some. }
  split.
  { intros old_q reward future. eexists _, _.
    split; [apply update_q_value_eq |].
    rewrite get_q_value_eq. simpl. rewrite lookup_insert_eq.
    split; [reflexivity |]. apply or_zero_Some. }
  split; [eexists; apply get_q_value_eq |].
  intros Hnone. by rewrite get_q_value_eq, Hnone.
Qed.

Lemma q_table_get_set_witness :
  q (NimAI_init default_alpha default_epsilon) !! ([1; 3; 5; 7], Some (0, 1)) = None /\
  get_q_value [1; 3; 5; 7] (Some (0, 1)) (NimAI_init default_alpha default_epsilon)
  = (Ok 0%Q, NimAI_init default_alpha default_epsilon).
Proof.
  assert (H : q (NimAI_init default_alpha default_epsilon)
                !! ([1; 3; 5; 7], Some (0, 1)) = None) by apply lookup_empty.
  split; [exact H |].
  exact (proj2 (proj2 (proj2 (proj2
    (q_table_get_set (NimAI_init default_alpha default_epsilon)
       [1; 3; 5; 7] (Some (0, 1)) 0%Q)))) H).
Defined.

(** ** The best future reward *)

Lemma Qgtb_true (a b : Q) : Qgtb a b = true -> (b <= a)%Q.
Proof.
  unfold Qgtb. rewrite negb_true_iff. intros H.
  apply Qlt_le_weak, Qnot_le_lt. intros Hle.
  apply Qle_bool_iff in Hle. congruence.
Qed.

Lemma Qgtb_false (a b : Q) : Qgtb a b = false -> (a <= b)%Q.
Proof.
  unfold Qgtb. rewrite negb_false_iff. apply Qle_bool_iff.
Qed.

Section BestValue.

Variable table : gmap key Q.
Variable state : list Z.

Lemma foldl_best_value_Some (l : list action) (b : Q) :
  exists m, foldl (best_value_step table state) (Some b) l = Some m /\
    (b <= m)%Q /\ (forall a, a ∈ l -> (q_or_zero table state a <= m)%Q) /\
    (m = b \/ exists a, a ∈ l /\ m = q_or_zero table state a).
Proof.
  revert b. induction l as [| a l IH]; intros b; simpl.
  - exists b. split; [done |]. split; [apply Qle_refl |].
    split; [by intros a Ha; inversion Ha | by left].
  - destruct (Qgtb (q_or_zero table state a) b) eqn:Hgt.
    + destruct (IH (q_or_zero table state a)) as (m & Hm & Hle & Hall & Hex).
      exists m. split; [done |].
      split; [eapply Qle_trans; [by apply Qgtb_true | done] |].
      split.
      * intros a' Ha'. inversion Ha'; subst; [done | by apply Hall].
      * right. destruct Hex as [-> | (a' & Ha' & ->)].
        -- exists a. split; [left | done].
        -- exists a'. split; [by right | done].
    + destruct (IH b) as (m & Hm & Hle & Hall & Hex).
      exists m. split; [done |]. split; [done |].
      split.
      * intros a' Ha'. inversion Ha'; subst; [| by apply Hall].
        eapply Qle_trans; [by apply Qgtb_false | done].
      * destruct Hex as [-> | (a' & Ha' & ->)]; [by left | right].
        exists a'. split; [by right | done].
Qed.

Lemma foldl_best_value (l : list action) :
  l <> [] ->
  exists m, foldl (best_value_step table state) None l = Some m /\
    (forall a, a ∈ l -> (q_or_zero table state a <= m)%Q) /\
    (exists a, a ∈ l /\ m = q_or_zero table state a).
Proof.
  destruct l as [| a l]; [done |]. intros _. simpl. fold (q_or_zero table state a).
  destruct (foldl_best_value_Some l (q_or_zero table state a)) as (m & Hm & Hle & Hall & Hex).
  exists m. split; [done |]. split.
  - intros a' Ha'. inversion Ha'; subst; [done | by apply Hall].
  - destruct Hex as [-> | (a' & Ha' & ->)].
    + exists a. split; [left | done].
    + exists a'. split; [by right | done].
Qed.

End BestValue.

Lemma best_future_reward_empty (self : NimAI) (state : list Z) :
  available_actions state = ∅ ->
  best_future_reward state self = (Ok (Some 0%Q), self).
Proof.
  intros He. unfold best_future_reward. by rewrite bool_decide_eq_true_2.
Qed.

Lemma best_future_reward_max (self : NimAI) (state : list Z) :
  available_actions state <> ∅ ->
  exists m, best_future_reward state self = (Ok (Some m), self) /\
    (exists a, a ∈ available_actions state /\
               m = or_zero (q self !! (state, Some a))) /\
    (forall a, a ∈ available_actions state ->
               (or_zero (q self !! (state, Some a)) <= m)%Q).
Proof.
  intros Hne. unfold best_future_reward.
  rewrite bool_decide_eq_false_2 by done.
  destruct (foldl_best_value (q self) state (elements (available_actions state)))
    as (m & Hm & Hall & (a & Ha & Hma)).
  { intros He. by apply elements_empty_inv, leibniz_equiv in He. }
  exists m. unfold bind, gets, ret. rewrite Hm. split; [done |]. split.
  - exists a. split; [by apply elem_of_elements | done].
  - intros a' Ha'. apply Hall. by apply elem_of_elements.
Qed.

Lemma best_future_reward_total (self : NimAI) (state : list Z) :
  exists bf, best_future_reward state self = (Ok (Some bf), self).
Proof.
  destruct (decide (available_actions state = ∅)) as [He | Hne].
  - eexists. by apply best_future_reward_empty.
  - destruct (best_future_reward_max self state Hne) as (m & Hm & _). eauto.
Qed.

(** C6: [best_future_reward(state)] answers 0 when no action is
    available in [state]; otherwise it answers the largest of the values
    [get_q_value(state, a)] over the available actions [a], pairs absent
    from the table counting for 0: the answer is the value of one
    available action and no available action has a larger one. *)
Theorem best_future_reward_spec (self : NimAI) (state : list Z) :
  (available_actions state = ∅ ->
   best_future_reward state self = (Ok (Some 0%Q), self)) /\
  (available_actions state <> ∅ ->
   exists m, best_future_reward state self = (Ok (Some m), self) /\
     (exists a, a ∈ available_actions state /\
                get_q_value state (Some a) self = (Ok m, self)) /\
     (forall a, a ∈ available_actions state ->
        exists v, get_q_value state (Some a) self = (Ok v, self) /\
                  (v <= m)%Q) /\
     (forall a, a ∈ available_actions state ->
        q self !! (state, Some a) = None -> (0 <= m)%Q)).
Proof.
  split; [apply best_future_reward_empty |].
  intros Hne.
  destruct (best_future_reward_max self state Hne) as (m & Hm & (a & Ha & ->) & Hall).
  eexists. split; [exact Hm |]. split; [| split].
  - exists a. split; [done | apply get_q_value_eq].
  - intros a' Ha'. eexists. split; [apply get_q_value_eq | by apply Hall].
  - intros a' Ha' Hnone. specialize (Hall a' Ha'). by rewrite Hnone in Hall.
Qed.

Lemma best_future_reward_spec_witness :
  available_actions [0; 0] = ∅ /\
  best_future_reward [0; 0] (NimAI_init default_alpha default_epsilon)
  = (Ok (Some 0%Q), NimAI_init default_alpha default_epsilon).
Proof.
  assert (H : available_actions [0; 0] = ∅)
    by (apply available_actions_all_zero; repeat constructor).
  split; [exact H |].
  exact (proj1 (best_future_reward_spec
                  (NimAI_init default_alpha default_epsilon) [0; 0]) H).
Defined.

(** ** The Q-learning update *)

Lemma update_eq (self : NimAI) (s : list Z) (a : option action) (s2 : list Z)
    (r bf : Q) :
  best_future_reward s2 self = (Ok (Some bf), self) ->
  update s a s2 r self
  = update_q_value s a (or_zero (q self !! (s, a))) r bf self.
Proof.
  intros Hbf. unfold update, bind. rewrite get_q_value_eq, Hbf. reflexivity.
Qed.

(** *** On the numbers of the interpreter *)

Lemma SFcompare_refl (f : spec_float) :
  f <> S754_nan -> SFcompare f f = Some Eq.
Proof.
  destruct f as [s | s | | s m e]; try done; intros _; simpl.
  - by destruct s.
  - by destruct s; rewrite Z.compare_refl, Pos.compare_cont_refl.
Qed.

Lemma same_float (f : spec_float) : IEEE.same (IEEE.Float f) (IEEE.Float f).
Proof.
  destruct f as [s | s | | s m e]; [left | left | by right | left];
    unfold IEEE.eq, IEEE.compare; by rewrite SFcompare_refl.
Qed.

(** [0.0 + p] is [p]. *)
Lemma zero_plus (p : spec_float) :
  IEEE.same (IEEE.Float (SFadd IEEE.prec IEEE.emax (S754_zero false) p))
    (IEEE.Float p).
Proof.
  destruct p as [s | s | | s m e]; simpl; try apply same_float.
  by destruct s; left.
Qed.

(** [(g + 0.0) - 0.0] is [g], but for the sign of a zero. *)
Lemma plus_minus_zero (g : spec_float) :
  let g' := SFsub IEEE.prec IEEE.emax
              (SFadd IEEE.prec IEEE.emax g (S754_zero false)) (S754_zero false) in
  g' = g \/ (exists s, g = S754_zero s) /\ g' = S754_zero false.
Proof.
  destruct g as [s | s | | s m e]; simpl; auto.
  right. split; [eauto |]. by destruct s.
Qed.

(** A product by a zero does not depend on the sign of the zero, as a
    value. *)
Lemma times_zero (f : spec_float) (s : bool) :
  IEEE.same
    (IEEE.Float (SFadd IEEE.prec IEEE.emax (S754_zero false)
                   (SFmul IEEE.prec IEEE.emax f (S754_zero false))))
    (IEEE.Float (SFmul IEEE.prec IEEE.emax f (S754_zero s))).
Proof.
  destruct f as [sf | sf | | sf m e]; simpl; try by right.
  - destruct sf, s; by left.
  - destruct sf, s; by left.
Qed.

Lemma float_of_int_0 : IEEE.float_of_int 0 = Ok (S754_zero false).
Proof. reflexivity. Qed.

Lemma add_int_0 (z : Z) : IEEE.add (IEEE.Int z) (IEEE.Int 0) = Ok (IEEE.Int z).
Proof. unfold IEEE.add, IEEE.arith. by rewrite Z.add_0_r. Qed.

Lemma sub_int_0 (z : Z) : IEEE.sub (IEEE.Int z) (IEEE.Int 0) = Ok (IEEE.Int z).
Proof. unfold IEEE.sub, IEEE.arith. by rewrite Z.sub_0_r. Qed.

Lemma add_0_int (z : Z) : IEEE.add (IEEE.Int 0) (IEEE.Int z) = Ok (IEEE.Int z).
Proof. reflexivity. Qed.

Lemma add_0_float (p : spec_float) :
  IEEE.add (IEEE.Int 0) (IEEE.Float p)
  = Ok (IEEE.Float (SFadd IEEE.prec IEEE.emax (S754_zero false) p)).
Proof. reflexivity. Qed.

Lemma add_float_0 (g : spec_float) :
  IEEE.add (IEEE.Float g) (IEEE.Int 0)
  = Ok (IEEE.Float (SFadd IEEE.prec IEEE.emax g (S754_zero false))).
Proof. reflexivity. Qed.

Lemma sub_float_0 (g : spec_float) :
  IEEE.sub (IEEE.Float g) (IEEE.Int 0)
  = Ok (IEEE.Float (SFsub IEEE.prec IEEE.emax g (S754_zero false))).
Proof. reflexivity. Qed.

Lemma same_int (z : Z) : IEEE.same (IEEE.Int z) (IEEE.Int z).
Proof. left. unfold IEEE.eq, IEEE.compare. by rewrite Z.compare_refl. Qed.

(** The value of line 137 when the old value and the future reward are
    the integer 0. *)
Lemma new_q_value_from_zero (al r : IEEE.number) :
  match IEEE.mul al r with
  | Ok y =>
      exists v, IEEE.new_q_value al (IEEE.Int 0) r (IEEE.Int 0) = Ok v /\
                IEEE.same v y
  | Raise err => IEEE.new_q_value al (IEEE.Int 0) r (IEEE.Int 0) = Raise err
  end.
Proof.
  unfold IEEE.new_q_value. destruct r as [z | g].
  - (* an integer reward *)
    rewrite add_int_0. cbn [IEEE.and_then]. rewrite sub_int_0.
    cbn [IEEE.and_then].
    destruct (IEEE.mul al (IEEE.Int z)) as [[zy | fy] | err]; [| | done];
      cbn [IEEE.and_then].
    + eexists. split; [apply add_0_int | apply same_int].
    + eexists. split; [apply add_0_float | apply zero_plus].
  - (* a float reward *)
    rewrite add_float_0. cbn [IEEE.and_then]. rewrite sub_float_0.
    cbn [IEEE.and_then].
    pose proof (plus_minus_zero g) as Hg. cbv zeta in Hg.
    set (g' := SFsub _ _ _ _) in *.
    unfold IEEE.mul, IEEE.arith.
    destruct al as [c | f]; cbn [IEEE.to_float].
    + destruct (IEEE.float_of_int c) as [fc | err]; [| done].
      cbn [IEEE.and_then]. eexists. split; [apply add_0_float |].
      destruct Hg as [-> | [[s ->] ->]]; [apply zero_plus | apply times_zero].
    + cbn [IEEE.and_then]. eexists. split; [apply add_0_float |].
      destruct Hg as [-> | [[s ->] ->]]; [apply zero_plus | apply times_zero].
Qed.

Lemma arith_raises (int_op : Z -> Z -> Z)
    (float_op : spec_float -> spec_float -> spec_float) (x y : IEEE.number)
    (e : exn) :
  IEEE.arith int_op float_op x y = Raise e -> e = OverflowError.
Proof.
  assert (Hf : forall z f, IEEE.float_of_int z = Raise f -> f = OverflowError).
  { intros z f. unfold IEEE.float_of_int.
    destruct (binary_normalize _ _ _ _ _); congruence. }
  unfold IEEE.arith.
  destruct x as [a | f], y as [b | g]; cbn [IEEE.to_float]; try done.
  - destruct (IEEE.float_of_int a) eqn:Ha; [done |].
    intros H. inversion H; subst. eauto.
  - destruct (IEEE.float_of_int b) eqn:Hb; [done |].
    intros H. inversion H; subst. eauto.
Qed.

Lemma new_q_value_raises (al old r future : IEEE.number) (e : exn) :
  IEEE.new_q_value al old r future = Raise e -> e = OverflowError.
Proof.
  unfold IEEE.new_q_value, IEEE.and_then, IEEE.add, IEEE.sub, IEEE.mul.
  destruct (IEEE.arith Z.add _ r future) as [x1 |] eqn:H1;
    [| intros H; inversion H; subst; by eapply arith_raises].
  destruct (IEEE.arith Z.sub _ x1 old) as [x2 |] eqn:H2;
    [| intros H; inversion H; subst; by eapply arith_raises].
  destruct (IEEE.arith Z.mul _ al x2) as [x3 |] eqn:H3;
    [| intros H; inversion H; subst; by eapply arith_raises].
  apply arith_raises.
Qed.

(** A number as [or_zero] gives it: one that counts as true, or the
    integer 0. *)
Lemma or_zero_normal (o : option IEEE.number) :
  IEEE.truthy (IEEE.or_zero o) = true \/ IEEE.or_zero o = IEEE.Int 0.
Proof.
  destruct o as [v |]; simpl; [| by right].
  destruct (IEEE.truthy v) eqn:Hv; [by left | by right].
Qed.

Lemma compare_0_finite (s : bool) (m : positive) (e : Z) :
  IEEE.compare_int_float 0 (S754_finite s m e) <> Some Eq.
Proof.
  unfold IEEE.compare_int_float.
  assert (Hm : cond_Zopp s (Z.pos m) <> 0) by (destruct s; simpl; lia).
  destruct e as [| k | k]; intros H; injection H as Hc.
  - apply (Z.compare_eq 0 (cond_Zopp s (Z.pos m) * 2 ^ 0)) in Hc. lia.
  - apply (Z.compare_eq 0 (cond_Zopp s (Z.pos m) * 2 ^ Z.pos k)) in Hc.
    pose proof (Z.pow_pos_nonneg 2 (Z.pos k)). nia.
  - apply (Z.compare_eq (0 * 2 ^ Z.pos k) (cond_Zopp s (Z.pos m))) in Hc. lia.
Qed.

Lemma truthy_not_zero (x : IEEE.number) :
  IEEE.truthy x = true -> IEEE.eq x (IEEE.Int 0) = false.
Proof.
  unfold IEEE.eq, IEEE.compare. destruct x as [z | f].
  - cbn [IEEE.truthy]. rewrite negb_true_iff. intros Hz%Z.eqb_neq.
    destruct (z ?= 0) eqn:Hc; try done. by apply Z.compare_eq in Hc.
  - destruct f as [s | s | | s m e]; try done; [by destruct s |].
    intros _. pose proof (compare_0_finite s m e) as Hne.
    destruct (IEEE.compare_int_float 0 (S754_finite s m e)) as [[] |];
      try done.
Qed.

Lemma eq_zero_is_zero (o : option IEEE.number) :
  IEEE.eq (IEEE.or_zero o) (IEEE.Int 0) = true -> IEEE.or_zero o = IEEE.Int 0.
Proof.
  intros Heq. destruct (or_zero_normal o) as [Ht | Hz]; [| done].
  apply truthy_not_zero in Ht. congruence.
Qed.

Lemma IEEE_get_q_value_eq (self : IEEE.NimAI) (state : list Z)
    (a : option action) :
  IEEE.get_q_value state a self
  = (Ok (IEEE.or_zero (IEEE.q self !! (state, a))), self).
Proof. reflexivity. Qed.

Lemma IEEE_foldl_best_value (table : gmap key IEEE.number) (state : list Z)
    (l : list action) (o : option IEEE.number) :
  exists o', foldl (IEEE.best_value_step table state) (Some (IEEE.or_zero o)) l
             = Some (IEEE.or_zero o').
Proof.
  revert o. induction l as [| a l IH]; intros o; [by exists o |].
  cbn [foldl]. unfold IEEE.best_value_step at 2.
  destruct (IEEE.gt _ _); apply IH.
Qed.

Section Interpreter.

(** The order in which the interpreter walks a set: any list of its
    elements. *)
Variable iteration : gset action -> list action.
Hypothesis iteration_elements : forall X a, a ∈ iteration X <-> a ∈ X.

Lemma IEEE_best_future_reward_total (self : IEEE.NimAI) (state : list Z) :
  exists o, IEEE.best_future_reward iteration state self
            = (Ok (Some (IEEE.or_zero o)), self).
Proof.
  unfold IEEE.best_future_reward.
  destruct (bool_decide_reflect (available_actions state = ∅)) as [He | Hne].
  - by exists None.
  - assert (Hl : iteration (available_actions state) <> []).
    { apply set_choose_L in Hne as [a Ha]. apply iteration_elements in Ha.
      intros Hnil. rewrite Hnil in Ha. by inversion Ha. }
    destruct (iteration (available_actions state)) as [| a l]; [done |].
    cbn [foldl]. unfold IEEE.best_value_step at 2.
    destruct (IEEE_foldl_best_value (IEEE.q self) state l
                (IEEE.q self !! (state, Some a))) as (o & H).
    exists o. unfold bind, gets, ret. by rewrite H.
Qed.

(** C4: [update(s, a, s2, r)] evaluates
    [old + alpha * ((r + best) - old)] in the arithmetic of the
    interpreter, where [old] is the answer of [get_q_value(s, a)] and
    [best] the answer of [best_future_reward(s2)], both on the table
    before the call, and stores the value at the key [(s, a)], changing
    no other key; it stores nothing when the evaluation raises, which
    only an integer beyond the range of floats makes it do.  When
    [old == 0] and [best == 0] what [update] stores is the value of
    [alpha * r]. *)
Theorem update_stores (self : IEEE.NimAI) (s : list Z) (a : option action)
    (s2 : list Z) (r : IEEE.number) :
  exists old best,
    IEEE.get_q_value s a self = (Ok old, self) /\
    IEEE.best_future_reward iteration s2 self = (Ok (Some best), self) /\
    IEEE.update iteration s a s2 r self
    = match
        IEEE.and_then (IEEE.add r best) (fun estimate =>
        IEEE.and_then (IEEE.sub estimate old) (fun change =>
        IEEE.and_then (IEEE.mul (IEEE.alpha self) change) (fun step =>
        IEEE.add old step)))
      with
      | Ok v =>
          (Ok tt,
           {| IEEE.q := <[(s, a) := v]> (IEEE.q self);
              IEEE.alpha := IEEE.alpha self;
              IEEE.epsilon := IEEE.epsilon self |})
      | Raise e => (Raise e, self)
      end /\
    (forall e,
       IEEE.and_then (IEEE.add r best) (fun estimate =>
       IEEE.and_then (IEEE.sub estimate old) (fun change =>
       IEEE.and_then (IEEE.mul (IEEE.alpha self) change) (fun step =>
       IEEE.add old step))) = Raise e ->
       e = OverflowError) /\
    (IEEE.eq old (IEEE.Int 0) = true -> IEEE.eq best (IEEE.Int 0) = true ->
     match IEEE.mul (IEEE.alpha self) r with
     | Ok y =>
         exists v self',
           IEEE.update iteration s a s2 r self = (Ok tt, self') /\
           IEEE.q self' !! (s, a) = Some v /\ IEEE.same v y
     | Raise e => IEEE.update iteration s a s2 r self = (Raise e, self)
     end).
Proof.
  destruct (IEEE_best_future_reward_total self s2) as (o & Hbf).
  exists (IEEE.or_zero (IEEE.q self !! (s, a))), (IEEE.or_zero o).
  split; [apply IEEE_get_q_value_eq |]. split; [exact Hbf |].
  assert (Hu : IEEE.update iteration s a s2 r self
    = match IEEE.new_q_value (IEEE.alpha self)
              (IEEE.or_zero (IEEE.q self !! (s, a))) r (IEEE.or_zero o) with
      | Ok v =>
          (Ok tt,
           {| IEEE.q := <[(s, a) := v]> (IEEE.q self);
              IEEE.alpha := IEEE.alpha self;
              IEEE.epsilon := IEEE.epsilon self |})
      | Raise e => (Raise e, self)
      end).
  { unfold IEEE.update, bind. rewrite IEEE_get_q_value_eq, Hbf.
    unfold IEEE.update_q_value, bind, gets, IEEE.lift.
    by destruct (IEEE.new_q_value _ _ _ _). }
  split; [exact Hu |]. split.
  - intros e. apply (new_q_value_raises (IEEE.alpha self)).
  - intros Hold%eq_zero_is_zero Hbest%eq_zero_is_zero.
    rewrite Hu, Hold, Hbest.
    pose proof (new_q_value_from_zero (IEEE.alpha self) r) as Hz.
    destruct (IEEE.mul (IEEE.alpha self) r) as [y | e].
    + destruct Hz as (v & -> & Hsame). eexists v, _.
      split; [reflexivity |]. split; [apply lookup_insert_eq | done].
    + by rewrite Hz.
Qed.

End Interpreter.

Example update_rounds :
  IEEE.q (snd (IEEE.update elements [1] (Some (0, 1)) [0] (IEEE.Int 1) tiny_table))
    !! ([1], Some (0, 1)) = Some IEEE.half.
Proof. vm_compute. reflexivity. Qed.

Example update_overflows :
  IEEE.update elements [1] (Some (0, 1)) [0] (IEEE.Int (10 ^ 400)) tiny_table
  = (Raise OverflowError, tiny_table).
Proof. vm_compute. reflexivity. Qed.

Lemma update_stores_witness :
  (forall (X : gset action) (a : action), a ∈ elements X <-> a ∈ X) /\
  exists v self',
    IEEE.update elements [1] (Some (0, 1)) [0] (IEEE.Int (-1))
      {| IEEE.q := ∅; IEEE.alpha := IEEE.half; IEEE.epsilon := IEEE.tenth |}
    = (Ok tt, self') /\
    IEEE.q self' !! ([1], Some (0, 1)) = Some v /\
    IEEE.same v (IEEE.Float (S754_finite true 4503599627370496 (-53))).
Proof.
  assert (Hel : forall (X : gset action) a, a ∈ elements X <-> a ∈ X)
    by (intros X a; apply elem_of_elements).
  split; [exact Hel |].
  destruct (update_stores elements Hel
              {| IEEE.q := ∅; IEEE.alpha := IEEE.half; IEEE.epsilon := IEEE.tenth |}
              [1] (Some (0, 1)) [0] (IEEE.Int (-1)))
    as (old & best & Hg & Hb & _ & _ & H).
  assert (Hold : IEEE.eq old (IEEE.Int 0) = true).
  { rewrite IEEE_get_q_value_eq in Hg. inversion Hg. reflexivity. }
  assert (Hbest : IEEE.eq best (IEEE.Int 0) = true).
  { vm_compute in Hb. inversion Hb. reflexivity. }
  exact (H Hold Hbest).
Defined.

(** ** Choosing an action when there is none *)

Lemma choose_action_empty (self : NimAI) (state : list Z) (explore : bool)
    (rnd : Random) :
  available_actions state = ∅ ->
  choose_action self state explore rnd
  = (if explore && Qgtb (epsilon self) (draws rnd (pos rnd))
     then Raise IndexError else Ok None,
     advance rnd).
Proof.
  intros He. unfold choose_action, bind, random. rewrite He, elements_empty.
  destruct (explore && _); reflexivity.
Qed.

(** C2, as the specification words it, fails: with the explore flag off
    and no available action, [choose_action] raises nothing and returns
    [None]. *)
Lemma choose_action_returns_None :
  available_actions [0; 0] = ∅ /\
  fst (choose_action (NimAI_init default_alpha default_epsilon) [0; 0] false zeros)
    = Ok None /\
  ~ (exists e,
       fst (choose_action (NimAI_init default_alpha default_epsilon)
              [0; 0] false zeros) = Raise e).
Proof.
  assert (H : available_actions [0; 0] = ∅)
    by (apply available_actions_all_zero; repeat constructor).
  rewrite (choose_action_empty _ _ _ _ H). simpl.
  split; [done |]. split; [done |]. intros [e He]. discriminate.
Qed.

(** C2 (amended): on a state with no available action, [choose_action]
    returns [None] without raising whenever it does not explore (the
    flag is off, or the number drawn is not below [epsilon]); when it
    explores (flag on and number drawn below [epsilon]) it raises
    IndexError, the error of [random.choice] on an empty list.  In both
    cases one number has been drawn. *)
Theorem choose_action_no_actions (self : NimAI) (state : list Z)
    (explore : bool) (rnd : Random) :
  available_actions state = ∅ ->
  (explore = false \/ (epsilon self <= draws rnd (pos rnd))%Q ->
   choose_action self state explore rnd = (Ok None, advance rnd)) /\
  (explore = true /\ (draws rnd (pos rnd) < epsilon self)%Q ->
   choose_action self state explore rnd = (Raise IndexError, advance rnd)).
Proof.
  intros He. rewrite (choose_action_empty _ _ _ _ He). split.
  - intros [-> | Hle]; [done |].
    replace (Qgtb _ _) with false; [by rewrite andb_false_r |].
    symmetry. unfold Qgtb. rewrite negb_false_iff. by apply Qle_bool_iff.
  - intros [-> Hlt]. simpl.
    replace (Qgtb _ _) with true; [done |].
    symmetry. unfold Qgtb. rewrite negb_true_iff.
    destruct (Qle_bool _ _) eqn:Hb; [| done].
    apply Qle_bool_iff in Hb. by apply Qle_not_lt in Hb.
Qed.

Lemma choose_action_no_actions_witness :
  available_actions [0; 0] = ∅ /\
  choose_action (NimAI_init default_alpha default_epsilon) [0; 0] true zeros
  = (Raise IndexError, advance zeros).
Proof.
  assert (H : available_actions [0; 0] = ∅)
    by (apply available_actions_all_zero; repeat constructor).
  split; [exact H |].
  apply (proj2 (choose_action_no_actions
                  (NimAI_init default_alpha default_epsilon) [0; 0] true zeros H)).
  split; [reflexivity | reflexivity].
Defined.

(** ** Choosing an action when there is one *)

Lemma choice_elem {A : Type} (l : list A) (rnd : Random) :
  l <> [] -> exists x, choice l rnd = (Ok x, advance rnd) /\ x ∈ l.
Proof.
  intros Hne. unfold choice.
  destruct (lookup_lt_is_Some_2 l (picks rnd (pos rnd) mod length l)%nat)
    as [x Hx].
  { apply Nat.mod_upper_bound. by destruct l. }
  exists x. rewrite Hx. split; [done |]. by eapply list_elem_of_lookup_2.
Qed.

Lemma foldl_best_action_Some (table : gmap key Q) (state : list Z)
    (l : list action) (a0 : action) (b : Q) :
  exists a m,
    foldl (best_action_step table state) (Some a0, Some b) l = (Some a, Some m)
    /\ a ∈ a0 :: l.
Proof.
  revert a0 b. induction l as [| a1 l IH]; intros a0 b; simpl.
  - exists a0, b. split; [done | left].
  - unfold best_action_step at 2. simpl.
    destruct (Qgtb _ _).
    + destruct (IH a1 (q_or_zero table state a1)) as (a & m & Hf & Ha).
      exists a, m. split; [done |]. by right.
    + destruct (IH a0 b) as (a & m & Hf & Ha).
      exists a, m. split; [done |].
      inversion Ha; subst; [left | right; by right].
Qed.

Lemma choose_action_legal (self : NimAI) (state : list Z) (explore : bool)
    (rnd : Random) :
  available_actions state <> ∅ ->
  exists a rnd',
    choose_action self state explore rnd = (Ok (Some a), rnd') /\
    a ∈ available_actions state.
Proof.
  intros Hne.
  assert (Hl : elements (available_actions state) <> []).
  { intros He. by apply elements_empty_inv, leibniz_equiv in He. }
  unfold choose_action, bind, random.
  destruct (explore && _).
  - destruct (choice_elem _ (advance rnd) Hl) as (a & Hc & Ha).
    rewrite Hc. exists a, (advance (advance rnd)).
    split; [done |]. by apply elem_of_elements.
  - destruct (elements (available_actions state)) as [| a0 l] eqn:He; [done |].
    simpl. unfold best_action_step at 2. simpl.
    destruct (foldl_best_action_Some (q self) state l a0
                (q_or_zero (q self) state a0)) as (a & m & Hf & Ha).
    rewrite Hf. exists a, (advance rnd). split; [done |].
    apply elem_of_elements. by rewrite He.
Qed.

Lemma move_legal (g : Nim) (a : action) :
  winner g = None -> a ∈ available_actions (piles g) ->
  exists g', move a g = (Ok tt, g').
Proof.
  destruct a as [pile count]. intros Hw Ha.
  apply elem_of_available_actions in Ha as (Hr & n & Hg & Hc).
  move_inv g pile count; try congruence; try lia; [| eauto].
  assert (n0 = n) by congruence. subst. lia.
Qed.

Lemma update_total (self : NimAI) (s : list Z) (a : option action)
    (s2 : list Z) (r : Q) :
  exists self', update s a s2 r self = (Ok tt, self').
Proof.
  destruct (best_future_reward_total self s2) as (bf & Hbf).
  rewrite (update_eq _ _ _ _ _ _ Hbf), update_q_value_eq. eauto.
Qed.

(** ** Self-play *)

Lemma actions_nonempty (ps : list Z) :
  Forall (fun pile => 0 <= pile) ps -> ~ Forall (fun pile => pile = 0) ps ->
  available_actions ps <> ∅.
Proof.
  intros Hnn Hnz He. apply Hnz. apply Forall_lookup. intros i x Hix.
  destruct (decide (x = 0)) as [| Hx]; [done | exfalso].
  rewrite Forall_lookup in Hnn. pose proof (Hnn i x Hix) as Hx0.
  pose proof (lookup_lt_Some _ _ _ Hix) as Hlt.
  assert (Hin : (Z.of_nat i, 1) ∈ available_actions ps).
  { apply elem_of_available_actions.
    assert (Hr : 0 <= Z.of_nat i < len ps) by (unfold len; lia).
    split; [done |].
    destruct (getitem_in_range ps _ Hr) as (y & Hg & Hl).
    rewrite Nat2Z.id in Hl. exists y. split; [done |]. simplify_eq. lia. }
  rewrite He in Hin. by apply not_elem_of_empty in Hin.
Qed.

Lemma sum_pos (ps : list Z) :
  Forall (fun pile => 0 <= pile) ps -> ~ Forall (fun pile => pile = 0) ps ->
  0 < sum ps.
Proof.
  intros Hnn Hnz. rewrite <- size_available_actions by done.
  pose proof (actions_nonempty ps Hnn Hnz) as Hne.
  assert (size (available_actions ps) <> 0%nat); [| lia].
  apply size_non_empty_iff. intros He. by apply leibniz_equiv in He.
Qed.

Lemma bind_ok {S A B : Type} (m : M S A) (k : A -> M S B) (s s' : S) (a : A) :
  m s = (Ok a, s') -> bind m k s = k a s'.
Proof. intros H. unfold bind. by rewrite H. Qed.

Lemma bind_gets {S A B : Type} (f : S -> A) (k : A -> M S B) (s : S) :
  bind (gets f) k s = k (f s) s.
Proof. reflexivity. Qed.

Lemma last_set_state_ok (f : Frame) (p : Z) (st : list Z) (s : Slot) :
  f_last f !! p = Some s ->
  last_set_state p st f
  = (Ok tt, {| f_player := f_player f; f_game := f_game f;
               f_last := <[p := {| slot_state := Some st;
                                   slot_action := slot_action s |}]> (f_last f);
               f_random := f_random f; f_stdout := f_stdout f |}).
Proof.
  intros H. unfold last_set_state, bind, last_get. by rewrite H.
Qed.

Lemma last_set_action_ok (f : Frame) (p : Z) (a : option action) (s : Slot) :
  f_last f !! p = Some s ->
  last_set_action p a f
  = (Ok tt, {| f_player := f_player f; f_game := f_game f;
               f_last := <[p := {| slot_state := slot_state s;
                                   slot_action := a |}]> (f_last f);
               f_random := f_random f; f_stdout := f_stdout f |}).
Proof.
  intros H. unfold last_set_action, bind, last_get. by rewrite H.
Qed.

Lemma update_last_ok (f : Frame) (p : Z) (new_state : list Z) (r : Q)
    (s : Slot) (st : list Z) :
  f_last f !! p = Some s -> slot_state s = Some st ->
  exists pl,
    update_last p new_state r f
    = (Ok tt, {| f_player := pl; f_game := f_game f; f_last := f_last f;
                 f_random := f_random f; f_stdout := f_stdout f |}).
Proof.
  intros H Hst. unfold update_last, bind, last_get. rewrite H, Hst.
  unfold with_player.
  destruct (update_total (f_player f) st (slot_action s) new_state r) as (pl & Hu).
  rewrite Hu. eauto.
Qed.

Lemma ply_ready (f : Frame) :
  ready f ->
  exists b f' a,
    ply f = (Ok b, f') /\
    move a (f_game f) = (Ok tt, f_game f') /\
    f_stdout f' = f_stdout f /\
    b = negb (is_None (winner (f_game f'))) /\
    (b = false -> ready f').
Proof.
  intros (Hw & Hnn & Hnz & Hp & [s0 Hs0] & [s1 Hs1] & Hlast).
  destruct (choose_action_legal (f_player f) (piles (f_game f)) true (f_random f))
    as (a & rnd' & Hch & Ha); [by apply actions_nonempty |].
  destruct (move_legal (f_game f) a Hw Ha) as (g' & Hm).
  assert (Hlp : exists sp, f_last f !! player (f_game f) = Some sp).
  { destruct Hp as [-> | ->]; eauto. }
  destruct Hlp as [sp Hsp].
  destruct f as [pl g last rnd out]; simpl in *.
  unfold ply. rewrite !bind_gets. simpl.
  erewrite bind_ok; [| unfold with_random; simpl; rewrite Hch; reflexivity].
  rewrite bind_gets. simpl.
  erewrite bind_ok; [| by eapply last_set_state_ok]. simpl.
  erewrite bind_ok; [| by eapply last_set_action_ok, lookup_insert_eq]. simpl.
  rewrite insert_insert_eq.
  erewrite bind_ok; [| unfold game_move, with_game; simpl; rewrite Hm; reflexivity].
  rewrite !bind_gets. simpl.
  pose proof (move_ok_effect _ _ _ Hm) as (_ & Hiff & _ & _ & Hnn' & Hp' & _).
  assert (Hne : player g' <> player g).
  { rewrite Hp'. unfold other_player. destruct Hp as [-> | ->]; simpl; lia. }
  assert (Hback : other_player (player g') = player g).
  { rewrite Hp'. unfold other_player. by destruct Hp as [-> | ->]. }
  assert (Hp01 : player g' = 0 \/ player g' = 1).
  { rewrite Hp'. unfold other_player. destruct (_ =? _); auto. }
  assert (Hsp' : exists sp', last !! player g' = Some sp').
  { destruct Hp01 as [-> | ->]; eauto. }
  destruct Hsp' as [sp' Hsp'].
  set (last' := <[player g := _]> last).
  assert (Hl' : last' !! player g' = Some sp').
  { unfold last'. by rewrite lookup_insert_ne. }
  destruct (winner g') as [w |] eqn:Hw'; simpl.
  - destruct (update_total pl (piles g) (Some a) (piles g') (-1)%Q) as (pl1 & Hu).
    erewrite bind_ok; [| unfold with_player; simpl; rewrite Hu; reflexivity].
    destruct Hlast as [(sl & st & Hsl & Hst) | Hno];
      [| by rewrite (Hno _ _ Hm) in Hw'].
    rewrite <- Hp' in Hsl. assert (sl = sp') by congruence. subst sl.
    edestruct (update_last_ok) as (pl2 & Hul); [| exact Hst |].
    2: { erewrite bind_ok; [| exact Hul]. unfold ret.
         eexists true, _, a. split; [reflexivity |]. simpl. rewrite Hw'.
         repeat split; try done. }
    exact Hl'.
  - assert (Hready : forall pl2, ready {| f_player := pl2; f_game := g';
               f_last := last'; f_random := rnd'; f_stdout := out |}).
    { intros pl2. unfold ready. simpl. split; [done |]. split; [by apply Hnn' |].
      split; [intros Hz; apply Hiff in Hz; congruence |].
      split; [done |].
      split; [unfold last'; destruct (decide (player g = 0)) as [-> | ?];
              [rewrite lookup_insert_eq | rewrite lookup_insert_ne by done]; eauto |].
      split; [unfold last'; destruct (decide (player g = 1)) as [-> | ?];
              [rewrite lookup_insert_eq | rewrite lookup_insert_ne by done]; eauto |].
      left. rewrite Hback. unfold last'. rewrite lookup_insert_eq. eauto. }
    erewrite bind_ok; [| unfold last_get; simpl; rewrite Hl'; reflexivity].
    destruct (slot_state sp') as [st |] eqn:Hst; simpl.
    + edestruct (update_last_ok) as (pl2 & Hul); [| exact Hst |].
      2: { erewrite bind_ok; [| exact Hul]. unfold ret.
           eexists false, _, a. split; [reflexivity |]. simpl. rewrite Hw'.
           do 3 (split; [done |]). intros _. apply Hready. }
      exact Hl'.
    + unfold ret. eexists false, _, a. split; [reflexivity |]. simpl.
      rewrite Hw'. do 3 (split; [done |]). intros _. apply Hready.
Qed.

Lemma first_ply_cannot_end (a : action) (g' : Nim) :
  move a (Nim_init default_initial) = (Ok tt, g') -> winner g' = None.
Proof.
  intros (pile & count & n & -> & _ & _ & _ & _ & ->)%move_ok_inv.
  unfold moved. simpl.
  replace (all_zero _) with false; [done |].
  unfold all_zero.
  destruct (Z.to_nat pile) as [| [| [| [| k]]]]; simpl;
    by rewrite ?andb_false_r.
Qed.

Lemma fresh_frame_ready (p : NimAI) (rnd : Random) (out : list Output) :
  ready (fresh_frame p rnd out).
Proof.
  unfold ready, fresh_frame. simpl.
  split; [done |]. split; [repeat constructor; lia |].
  split; [intros H; by inversion H |].
  split; [by left |].
  split; [by eexists |]. split; [by eexists |].
  right. apply first_ply_cannot_end.
Qed.

Lemma choose_action_advances (self : NimAI) (state : list Z) (explore : bool)
    (rnd rnd' : Random) (r : Res (option action)) :
  choose_action self state explore rnd = (r, rnd') ->
  (pos rnd < pos rnd')%nat.
Proof.
  unfold choose_action, bind, random, choice, ret.
  destruct (explore && _).
  - destruct (_ !! _); intros [= <- <-]; simpl; lia.
  - intros [= <- <-]. simpl. lia.
Qed.

Lemma update_table_ok (p p' : NimAI) (st : list Z) (act : action)
    (s2 : list Z) (r : Q) :
  table_ok p -> position st -> act ∈ available_actions st ->
  update st (Some act) s2 r p = (Ok tt, p') ->
  table_ok p' /\ is_Some (q p' !! (st, Some act)) /\
  (forall k, is_Some (q p !! k) -> is_Some (q p' !! k)).
Proof.
  intros Hok Hpos Hact Hu.
  destruct (best_future_reward_total p s2) as (bf & Hbf).
  rewrite (update_eq _ _ _ _ _ _ Hbf), update_q_value_eq in Hu.
  inversion Hu; subst; clear Hu. cbn [q alpha epsilon].
  destruct Hok as (Hal & Hep & Hq).
  split; [| split].
  - split; [done |]. split; [done |]. cbn [q].
    intros st' a' v.
    destruct (decide ((st, Some act) = (st', a'))) as [Heq | Hne].
    + inversion Heq; subst. intros _. split; [done | eauto].
    + rewrite lookup_insert_ne by done. apply Hq.
  - rewrite lookup_insert_eq. eauto.
  - intros k Hk. destruct (decide ((st, Some act) = k)) as [<- | Hne].
    + rewrite lookup_insert_eq. eauto.
    + by rewrite lookup_insert_ne.
Qed.

Lemma update_last_run (f : Frame) (p : Z) (new_state : list Z) (r : Q)
    (s : Slot) (st : list Z) (pl : NimAI) :
  f_last f !! p = Some s -> slot_state s = Some st ->
  update st (slot_action s) new_state r (f_player f) = (Ok tt, pl) ->
  update_last p new_state r f
  = (Ok tt, {| f_player := pl; f_game := f_game f; f_last := f_last f;
               f_random := f_random f; f_stdout := f_stdout f |}).
Proof.
  intros H Hst Hu. unfold update_last, bind, last_get. rewrite H, Hst.
  unfold with_player. by rewrite Hu.
Qed.

(** One turn of the game loop of [train], on a frame as [train] keeps
    it: the move chosen is made, the random source is used, the table
    keeps its keys, and the move that wins is in the table. *)
Lemma ply_trained (f : Frame) :
  trained f ->
  exists b f' a,
    ply f = (Ok b, f') /\
    move a (f_game f) = (Ok tt, f_game f') /\
    (pos (f_random f) < pos (f_random f'))%nat /\
    f_stdout f' = f_stdout f /\
    table_ok (f_player f') /\ slots_ok (f_last f') /\
    position (piles (f_game f')) /\
    (forall k, is_Some (q (f_player f) !! k) ->
               is_Some (q (f_player f') !! k)) /\
    (b = true ->
     winner (f_game f') <> None /\
     Forall (fun pile => pile = 0) (piles (f_game f')) /\
     is_Some (q (f_player f') !! (piles (f_game f), Some a))) /\
    (b = false -> winner (f_game f') = None).
Proof.
  intros (Hready & Htab & Hslots & Hpos).
  destruct Hready as (Hw & Hnn & Hnz & Hp & [s0 Hs0] & [s1 Hs1] & Hlast).
  destruct (choose_action_legal (f_player f) (piles (f_game f)) true (f_random f))
    as (a & rnd' & Hch & Ha); [by apply actions_nonempty |].
  pose proof (choose_action_advances _ _ _ _ _ _ Hch) as Hadv.
  destruct (move_legal (f_game f) a Hw Ha) as (g' & Hm).
  assert (Hlp : exists sp, f_last f !! player (f_game f) = Some sp).
  { destruct Hp as [-> | ->]; eauto. }
  destruct Hlp as [sp Hsp].
  destruct f as [pl g last rnd out]; simpl in *.
  unfold ply. rewrite !bind_gets. simpl.
  erewrite bind_ok; [| unfold with_random; simpl; rewrite Hch; reflexivity].
  rewrite bind_gets. simpl.
  erewrite bind_ok; [| by eapply last_set_state_ok]. simpl.
  erewrite bind_ok; [| by eapply last_set_action_ok, lookup_insert_eq]. simpl.
  rewrite insert_insert_eq.
  erewrite bind_ok; [| unfold game_move, with_game; simpl; rewrite Hm; reflexivity].
  rewrite !bind_gets. simpl.
  pose proof (move_ok_effect _ _ _ Hm) as (_ & Hiff & Hle & _ & Hnn' & Hp' & _).
  assert (Hne : player g' <> player g).
  { rewrite Hp'. unfold other_player. destruct Hp as [-> | ->]; simpl; lia. }
  assert (Hp01 : player g' = 0 \/ player g' = 1).
  { rewrite Hp'. unfold other_player. destruct (_ =? _); auto. }
  assert (Hsp' : exists sp', last !! player g' = Some sp').
  { destruct Hp01 as [-> | ->]; eauto. }
  destruct Hsp' as [sp' Hsp'].
  set (last' := <[player g := _]> last).
  assert (Hl' : last' !! player g' = Some sp').
  { unfold last'. by rewrite lookup_insert_ne. }
  assert (Hpos' : position (piles g')).
  { destruct Hpos as [Hpos1 Hpos2]. split; [| by apply Hnn'].
    eapply Forall2_trans; [| exact Hle | exact Hpos1]. intros; lia. }
  assert (Hslots' : slots_ok last').
  { intros p sl st Hl Hst. unfold last' in Hl.
    destruct (decide (player g = p)) as [<- | Hnp].
    - rewrite lookup_insert_eq in Hl. inversion Hl; subst. simpl in *.
      inversion Hst; subst. split; [done |]. eauto.
    - rewrite lookup_insert_ne in Hl by done. by eapply Hslots. }
  destruct (winner g') as [w |] eqn:Hw'; simpl.
  - destruct (update_total pl (piles g) (Some a) (piles g') (-1)%Q) as (pl1 & Hu).
    destruct (update_table_ok _ _ _ _ _ _ Htab Hpos Ha Hu)
      as (Htab1 & Hkey1 & Hkeep1).
    destruct Hlast as [(sl & st & Hsl & Hst) | Hno];
      [| by rewrite (Hno _ _ Hm) in Hw'].
    rewrite <- Hp' in Hsl. assert (sl = sp') by congruence. subst sl.
    destruct (Hslots _ _ _ Hsp' Hst) as (Hpst & act & Hact & Hin).
    destruct (update_total pl1 st (slot_action sp') (piles g') 1%Q) as (pl2 & Hu2).
    pose proof Hu2 as Hu2'. rewrite Hact in Hu2'.
    destruct (update_table_ok _ _ _ _ _ _ Htab1 Hpst Hin Hu2')
      as (Htab2 & _ & Hkeep2).
    erewrite bind_ok; [| unfold with_player; simpl; rewrite Hu; reflexivity].
    erewrite bind_ok; [| by eapply update_last_run; [exact Hl' | exact Hst |]].
    unfold ret. eexists true, _, a. split; [reflexivity |]. simpl.
    rewrite Hw'. split_and!; try done; auto.
    intros _. split_and!; [done | by apply Hiff | auto].
  - erewrite bind_ok; [| unfold last_get; simpl; rewrite Hl'; reflexivity].
    destruct (slot_state sp') as [st |] eqn:Hst; simpl.
    + destruct (Hslots _ _ _ Hsp' Hst) as (Hpst & act & Hact & Hin).
      destruct (update_total pl st (slot_action sp') (piles g') 0%Q) as (pl2 & Hu2).
      pose proof Hu2 as Hu2'. rewrite Hact in Hu2'.
      destruct (update_table_ok _ _ _ _ _ _ Htab Hpst Hin Hu2')
        as (Htab2 & _ & Hkeep2).
      erewrite bind_ok; [| by eapply update_last_run; [exact Hl' | exact Hst |]].
      unfold ret. eexists false, _, a. split; [reflexivity |]. simpl.
      rewrite Hw'. split_and!; try done.
    + unfold ret. eexists false, _, a. split; [reflexivity |]. simpl.
      rewrite Hw'. split_and!; try done.
Qed.

Lemma moves_step (a : action) (l : list action) (s s1 s' : Nim) :
  move a s = (Ok tt, s1) -> moves l s1 = (Ok tt, s') ->
  moves (a :: l) s = (Ok tt, s').
Proof. intros Hm Hl. cbn [moves]. unfold bind. by rewrite Hm. Qed.

(** The game loop of [train], on a frame as [train] keeps it. *)
Lemma game_loop_played (fuel : nat) (f : Frame) :
  trained f -> (Z.to_nat (sum (piles (f_game f))) <= fuel)%nat ->
  exists f' l l0 a g0,
    game_loop fuel f = Some (Ok tt, f') /\
    f_stdout f' = f_stdout f /\
    moves l (f_game f) = (Ok tt, f_game f') /\
    (pos (f_random f) + length l <= pos (f_random f'))%nat /\
    winner (f_game f') <> None /\
    Forall (fun pile => pile = 0) (piles (f_game f')) /\
    table_ok (f_player f') /\
    l = l0 ++ [a] /\ moves l0 (f_game f) = (Ok tt, g0) /\
    is_Some (q (f_player f') !! (piles g0, Some a)).
Proof.
  revert f. induction fuel as [| fuel IH]; intros f Ht Hfuel.
  - destruct Ht as ((_ & Hnn & Hnz & _) & _).
    pose proof (sum_pos _ Hnn Hnz). lia.
  - destruct (ply_trained f Ht)
      as (b & f1 & a & Hply & Hm & Hadv & Hout & Htab & Hsl & Hpos & Hkeep
          & Hwin & Hon).
    destruct (ply_ready f (proj1 Ht)) as (b' & f1' & _ & Hply' & _ & _ & _ & Hr).
    assert (b' = b /\ f1' = f1) as [-> ->] by (split; congruence).
    cbn [game_loop]. rewrite Hply. destruct b.
    + destruct (Hwin eq_refl) as (Hw & Hz & Hkey).
      exists f1, [a], [], a, (f_game f). split; [done |]. split; [done |].
      split; [by eapply moves_step |]. split; [simpl; lia |].
      split; [done |]. split; [done |]. split; [done |]. done.
    + assert (Ht1 : trained f1) by (split; [by apply Hr | done]).
      destruct (IH f1 Ht1) as (f' & l & l0 & a' & g0 & Hg & Hout' & Hl & Hrnd
                               & Hw & Hz & Htab' & -> & Hl0 & Hkey).
      { apply move_ok_effect in Hm as (_ & _ & _ & Hlt & _). lia. }
      exists f', (a :: l0 ++ [a']), (a :: l0), a', g0.
      split; [done |]. split; [congruence |].
      split; [by eapply moves_step |]. split; [simpl in *; lia |].
      split; [done |]. split; [done |]. split; [done |]. split; [done |].
      split; [by eapply moves_step | done].
Qed.

Lemma fresh_frame_trained (p : NimAI) (rnd : Random) (out : list Output) :
  table_ok p -> trained (fresh_frame p rnd out).
Proof.
  intros Htab. split; [apply fresh_frame_ready |]. split; [done |]. split.
  - intros k sl st Hl Hst. unfold fresh_frame, initial_last in Hl. simpl in Hl.
    destruct (decide (k = 0)) as [-> | ?];
      [rewrite lookup_insert_eq in Hl | rewrite lookup_insert_ne in Hl by done].
    + inversion Hl; subst. discriminate Hst.
    + destruct (decide (k = 1)) as [-> | ?];
        [rewrite lookup_insert_eq in Hl | rewrite lookup_insert_ne in Hl by done].
      * inversion Hl; subst. discriminate Hst.
      * by rewrite lookup_empty in Hl.
  - simpl. split; [| repeat constructor; lia].
    apply Forall_Forall2_diag, Forall_forall. intros; lia.
Qed.

Lemma heaps_insert (ps : list Z) (i : nat) (y : Z) :
  (heaps ps <= S (heaps (<[i := y]> ps)))%nat.
Proof.
  revert i. induction ps as [| p ps IH]; intros [| i]; simpl; try lia.
  - destruct (p =? 0), (y =? 0); lia.
  - specialize (IH i). destruct (p =? 0); lia.
Qed.

Lemma moves_heaps (l : list action) (s s' : Nim) :
  moves l s = (Ok tt, s') ->
  (heaps (piles s) <= length l + heaps (piles s'))%nat.
Proof.
  revert s. induction l as [| a l IH]; intros s Hm.
  - inversion Hm; subst. simpl. lia.
  - apply moves_cons in Hm as (s1 & Hm1 & Hm). apply IH in Hm.
    apply move_ok_inv in Hm1 as (pile & count & n & _ & _ & _ & _ & _ & ->).
    unfold moved in Hm. simpl in Hm.
    pose proof (heaps_insert (piles s) (Z.to_nat pile) (n - count)).
    simpl. lia.
Qed.

Lemma heaps_all_zero (ps : list Z) :
  Forall (fun pile => pile = 0) ps -> heaps ps = 0%nat.
Proof. induction 1 as [| p ps -> _ IH]; simpl; [done | by rewrite IH]. Qed.

Lemma moves_length (l : list action) (s s' : Nim) :
  moves l s = (Ok tt, s') ->
  Z.of_nat (length l) <= sum (piles s) - sum (piles s').
Proof.
  revert s. induction l as [| a l IH]; intros s Hm.
  - inversion Hm; subst. simpl. lia.
  - apply moves_cons in Hm as (s1 & Hm1 & Hm). apply IH in Hm.
    apply move_ok_effect in Hm1 as (_ & _ & _ & Hlt & _).
    cbn [length]. lia.
Qed.

Lemma full_game_length (l : list action) (g : Nim) :
  moves l (Nim_init default_initial) = (Ok tt, g) ->
  Forall (fun pile => pile = 0) (piles g) ->
  (4 <= length l <= 16)%nat.
Proof.
  intros Hm Hz. split.
  - apply moves_heaps in Hm. rewrite (heaps_all_zero _ Hz) in Hm.
    change (heaps (piles (Nim_init default_initial))) with 4%nat in Hm. lia.
  - apply moves_length in Hm.
    assert (Hs : sum (piles g) = 0).
    { clear Hm. induction Hz as [| p ps -> _ IH]; [done |].
      unfold sum in *. simpl. lia. }
    rewrite Hs in Hm.
    change (sum (piles (Nim_init default_initial))) with 16 in Hm. lia.
Qed.

Lemma training_game_played (fuel : nat) (i : Z) (p : NimAI) (rnd : Random)
    (out : list Output) :
  (16 <= fuel)%nat -> table_ok p ->
  exists p' rnd',
    training_game fuel i (p, rnd, out)
    = Some (Ok tt, (p', rnd', out ++ [PlayingTrainingGame (i + 1)])) /\
    game_played fuel i p rnd out
      (p', rnd', out ++ [PlayingTrainingGame (i + 1)]) /\
    table_ok p'.
Proof.
  intros Hfuel Htab.
  destruct (game_loop_played fuel
              (fresh_frame p rnd (out ++ [PlayingTrainingGame (i + 1)])))
    as (f' & l & l0 & a & g0 & Hg & Hout & Hl & Hrnd & Hw & Hz & Htab' & Hl0
        & Hg0 & Hkey).
  { by apply fresh_frame_trained. }
  { change (Z.to_nat (sum (piles (f_game (fresh_frame p rnd
              (out ++ [PlayingTrainingGame (i + 1)])))))) with 16%nat. lia. }
  cbn [fresh_frame f_game f_random f_stdout] in Hout, Hl, Hrnd, Hg0.
  exists (f_player f'), (f_random f').
  split; [unfold training_game; unfold fresh_frame in Hg; by rewrite Hg, Hout |].
  split; [| done].
  exists f', l, l0, a, g0.
  split; [done |]. split; [by rewrite Hout |]. split; [done |].
  split; [done |]. split; [by apply (full_game_length l (f_game f')) |].
  split; [done |]. split; [done |]. split; [done |]. done.
Qed.

Lemma training_games_played (fuel : nat) (l : list Z) (p : NimAI)
    (rnd : Random) (out : list Output) :
  (16 <= fuel)%nat -> table_ok p ->
  exists p' rnd',
    training_games fuel l (p, rnd, out)
    = Some (Ok tt,
            (p', rnd', out ++ map (fun i => PlayingTrainingGame (i + 1)) l)) /\
    games_played fuel l (p, rnd, out)
      (p', rnd', out ++ map (fun i => PlayingTrainingGame (i + 1)) l) /\
    table_ok p'.
Proof.
  intros Hfuel. revert p rnd out.
  induction l as [| i l IH]; intros p rnd out Htab; cbn [training_games map].
  - rewrite app_nil_r. exists p, rnd. split; [done |]. split; [constructor | done].
  - destruct (training_game_played fuel i p rnd out Hfuel Htab)
      as (p1 & rnd1 & H1 & Hplayed & Htab1).
    rewrite H1.
    destruct (IH p1 rnd1 (out ++ [PlayingTrainingGame (i + 1)]) Htab1)
      as (p' & rnd' & H2 & Hrest & Htab').
    rewrite <- app_assoc in H2, Hrest. cbn [app] in H2, Hrest.
    exists p', rnd'. split; [done |]. split; [| done].
    by econstructor.
Qed.

Lemma games_played_effect (fuel : nat) (l : list Z) (s s' : Session) :
  games_played fuel l s s' ->
  (pos (snd (fst s)) + 4 * length l <= pos (snd (fst s')))%nat /\
  (l <> [] -> q (fst (fst s')) <> ∅).
Proof.
  induction 1 as [s | i l p rnd out s1 s2 Hgame Hrest [IHpos IHq]].
  - split; [simpl; lia | done].
  - destruct Hgame as (f' & moves_made & l0 & a & g0 & _ & -> & _ & _ & Hlen
                       & Hrnd & _ & _ & _ & _ & Hkey).
    cbn [fst snd] in *. split; [cbn [length]; lia |].
    intros _. destruct l as [| i' l'].
    + inversion Hrest; subst. cbn [fst]. intros He.
      rewrite He in Hkey. destruct Hkey as [v Hv]. by rewrite lookup_empty in Hv.
    + by apply IHq.
Qed.

Lemma NimAI_init_table_ok : table_ok (NimAI_init default_alpha default_epsilon).
Proof.
  split; [done |]. split; [done |]. intros st a v H.
  simpl in H. by rewrite lookup_empty in H.
Qed.

(** C9: for every [n >= 0] and whatever the random source answers,
    [train(n)] returns, as soon as each game is given the 16 turns that
    the 16 objects of the initial piles allow.  It has announced the
    games 1 to [n], exactly [n] of them, then the end of training, and
    the player it returns is the one the [n] games have trained, one
    after the other from a fresh player: each of them a full game, from
    the initial piles through successful moves to a winner with every
    pile empty, that left its last move in the table.  The random source
    has answered at least [4 n] times, and for [n >= 1] the table is not
    empty.  Each successful move makes [sum(piles)] strictly smaller. *)
Theorem train_runs_n_games (n : Z) (rnd : Random) (fuel : nat) :
  0 <= n -> (16 <= fuel)%nat ->
  exists p rnd',
    train fuel n rnd
    = Some (Ok p,
            map (fun i => PlayingTrainingGame (i + 1)) (range 0 n)
              ++ [DoneTraining]) /\
    len (range 0 n) = n /\
    games_played fuel (range 0 n)
      (NimAI_init default_alpha default_epsilon, rnd, [])
      (p, rnd', map (fun i => PlayingTrainingGame (i + 1)) (range 0 n)) /\
    (pos rnd + 4 * Z.to_nat n <= pos rnd')%nat /\
    (1 <= n -> q p <> ∅) /\
    (forall g a g', move a g = (Ok tt, g') -> sum (piles g') < sum (piles g)).
Proof.
  intros Hn Hfuel.
  destruct (training_games_played fuel (range 0 n)
              (NimAI_init default_alpha default_epsilon) rnd [] Hfuel
              NimAI_init_table_ok)
    as (p & rnd' & Ht & Hplayed & _).
  cbn [app] in Ht, Hplayed.
  assert (Hlen : length (range 0 n) = Z.to_nat n).
  { unfold range. rewrite length_seqZ. lia. }
  destruct (games_played_effect _ _ _ _ Hplayed) as [Hpos Hq].
  cbn [fst snd] in Hpos, Hq. rewrite Hlen in Hpos.
  exists p, rnd'. split; [unfold train; by rewrite Ht |].
  split; [unfold len; lia |]. split; [done |]. split; [done |].
  split.
  - intros H1. apply Hq. intros Hnil. rewrite Hnil in Hlen. simpl in Hlen. lia.
  - intros g a g' Hm. by apply move_ok_effect in Hm as (_ & _ & _ & ? & _).
Qed.

Lemma train_runs_n_games_witness :
  0 <= 2 /\ (16 <= 16)%nat /\
  exists p,
    train 16 2 zeros
    = Some (Ok p, [PlayingTrainingGame 1; PlayingTrainingGame 2; DoneTraining])
    /\ q p <> ∅.
Proof.
  assert (H2 : 0 <= 2) by lia.
  assert (H16 : (16 <= 16)%nat) by lia.
  split; [exact H2 |]. split; [exact H16 |].
  destruct (train_runs_n_games 2 zeros 16 H2 H16)
    as (p & rnd' & Ht & _ & _ & _ & Hq & _).
  exists p. split; [exact Ht |]. apply Hq. lia.
Defined.

(** * Further properties of the game *)

Lemma move_succeeds_iff_available_aux (self : Nim) (a : action) :
  winner self = None ->
  fst (move a self) = Ok tt -> a ∈ available_actions (piles self).
Proof.
  intros Hw. destruct a as [pile count]. intros Hm.
  apply elem_of_available_actions.
  move_inv self pile count; try discriminate. eauto.
Qed.

Lemma move_success_effect_aux (self s' : Nim) (pile count : Z) :
  move (pile, count) self = (Ok tt, s') ->
  exists n,
    0 <= pile < len (piles self) /\
    piles self !! Z.to_nat pile = Some n /\ 1 <= count <= n /\
    piles s' !! Z.to_nat pile = Some (n - count) /\
    length (piles s') = length (piles self).
Proof.
  intros Hm. move_inv self pile count; try discriminate.
  inversion Hm; subst. exists n. unfold moved. simpl.
  split; [done |]. split; [done |]. split; [done |].
  split; [apply list_lookup_insert_eq; apply lookup_lt_Some in H2; lia |].
  apply length_insert.
Qed.

(** X1: [switch_player] never raises and touches neither the piles nor
    the winner; the player it leaves is 0 or 1, and is 0 exactly when the
    player was 1.  When the player is 0 or 1, the other player is a
    different one and switching twice restores the game. *)
Theorem switch_player_spec (self : Nim) :
  (exists s', switch_player self = (Ok tt, s') /\
     piles s' = piles self /\ winner s' = winner self /\
     player s' = other_player (player self) /\
     (player s' = 0 \/ player s' = 1) /\
     (player s' = 0 <-> player self = 1)) /\
  (player self = 0 \/ player self = 1 ->
   other_player (player self) <> player self /\
   other_player (other_player (player self)) = player self /\
   (switch_player ;;; switch_player)%py self = (Ok tt, self)).
Proof.
  split.
  - eexists. split; [reflexivity |]. simpl. unfold other_player.
    destruct (Z.eqb_spec (player self) 1); repeat split; auto; lia.
  - intros Hp. destruct self as [ps p w]. simpl in *.
    unfold bind, switch_player, modify, other_player. simpl.
    destruct Hp as [-> | ->]; simpl; repeat split; lia.
Qed.

Lemma switch_player_spec_witness :
  (player (Nim_init default_initial) = 0 \/ player (Nim_init default_initial) = 1) /\
  (switch_player ;;; switch_player)%py (Nim_init default_initial)
  = (Ok tt, Nim_init default_initial).
Proof.
  assert (H : player (Nim_init default_initial) = 0 \/
              player (Nim_init default_initial) = 1) by (left; reflexivity).
  split; [exact H |].
  exact (proj2 (proj2 (proj2 (switch_player_spec (Nim_init default_initial)) H))).
Defined.

(** X2: a successful [move((pile, count))] takes exactly [count] objects
    from the pile [pile], which held at least [count], and leaves every
    other pile and the number of piles as they were; the turn passes to
    the other player; [winner] becomes that new current player when
    every pile is now 0 and stays unset otherwise. *)
Theorem move_success_effect (self s' : Nim) (pile count : Z) :
  move (pile, count) self = (Ok tt, s') ->
  exists n,
    0 <= pile < len (piles self) /\
    piles self !! Z.to_nat pile = Some n /\ 1 <= count <= n /\
    piles s' !! Z.to_nat pile = Some (n - count) /\
    (forall i, i <> Z.to_nat pile -> piles s' !! i = piles self !! i) /\
    length (piles s') = length (piles self) /\
    player s' = other_player (player self) /\
    winner s' = (if all_zero (piles s') then Some (player s') else None).
Proof.
  intros Hm. move_inv self pile count; try discriminate.
  inversion Hm; subst. exists n. unfold moved. simpl.
  split; [done |]. split; [done |]. split; [done |].
  split; [apply list_lookup_insert_eq; apply lookup_lt_Some in H2; lia |].
  split; [intros i Hi; by apply list_lookup_insert_ne |].
  split; [apply length_insert |]. split; [done |].
  destruct (all_zero _); [done | by rewrite H].
Qed.

Lemma move_success_effect_witness :
  exists n,
    default_initial !! Z.to_nat 2 = Some n /\
    piles (snd (move (2, 3) (Nim_init default_initial))) !! Z.to_nat 2
    = Some (n - 3).
Proof.
  destruct (move_success_effect (Nim_init default_initial)
              (snd (move (2, 3) (Nim_init default_initial))) 2 3 eq_refl)
    as (n & _ & Hn & _ & Hn' & _).
  exists n. split; [exact Hn | exact Hn'].
Defined.

(** X3: while no winner is set, [move(a)] succeeds exactly when [a] is
    one of [available_actions(piles)], whatever the piles hold. *)
Theorem move_succeeds_iff_available (self : Nim) (a : action) :
  winner self = None ->
  (fst (move a self) = Ok tt <-> a ∈ available_actions (piles self)).
Proof.
  intros Hw. split.
  - destruct a as [pile count]. intros Hm.
    apply elem_of_available_actions.
    move_inv self pile count; try discriminate. eauto.
  - intros Ha. destruct (move_legal self a Hw Ha) as (g' & Hg). by rewrite Hg.
Qed.

Lemma move_succeeds_iff_available_witness :
  winner (Nim_init default_initial) = None /\
  (fst (move (3, 7) (Nim_init default_initial)) = Ok tt
   <-> (3, 7) ∈ available_actions (piles (Nim_init default_initial))).
Proof.
  assert (H : winner (Nim_init default_initial) = None) by reflexivity.
  split; [exact H |].
  exact (move_succeeds_iff_available (Nim_init default_initial) (3, 7) H).
Defined.

Lemma moves_winner_is_player (l : list action) (s0 s : Nim) (w : Z) :
  moves l s0 = (Ok tt, s) -> l <> [] -> winner s = Some w -> w = player s.
Proof.
  revert s0. induction l as [| a l IH]; intros s0 Hm Hne Hw; [done |].
  apply moves_cons in Hm as (s1 & Hm1 & Hm).
  destruct l as [| a' l'].
  - inversion Hm; subst.
    apply move_ok_effect in Hm1 as (_ & _ & _ & _ & _ & _ & Hwin). auto.
  - by apply (IH s1).
Qed.

Lemma moves_player (l : list action) (s0 s : Nim) :
  moves l s0 = (Ok tt, s) -> (player s0 = 0 \/ player s0 = 1) ->
  player s = (player s0 + Z.of_nat (length l)) mod 2.
Proof.
  revert s0. induction l as [| a l IH]; intros s0 Hm Hp.
  - inversion Hm; subst. simpl. destruct Hp as [-> | ->]; reflexivity.
  - apply moves_cons in Hm as (s1 & Hm1 & Hm).
    apply move_ok_effect in Hm1 as (_ & _ & _ & _ & _ & Hp1 & _).
    rewrite (IH s1 Hm).
    + rewrite Hp1. cbn [length]. rewrite Nat2Z.inj_succ.
      destruct Hp as [-> | ->]; unfold other_player; simpl (_ =? _); cbv iota.
      * f_equal. lia.
      * replace (1 + Z.succ (Z.of_nat (length l)))
          with (0 + Z.of_nat (length l) + 1 * 2) by lia.
        by rewrite Z.mod_add.
    + rewrite Hp1. unfold other_player. destruct (_ =? _); auto.
Qed.

(** X4: in a game started by [Nim(initial)] and played through [k]
    successful moves, the player to move is [k mod 2]: the players
    alternate, player 0 first.  When a winner is set, at least one move
    was made and the winner is that player [k mod 2], the one who did
    not make the last move. *)
Theorem players_alternate (initial : list Z) (l : list action) (s : Nim) :
  moves l (Nim_init initial) = (Ok tt, s) ->
  player s = Z.of_nat (length l) mod 2 /\
  (forall w, winner s = Some w ->
     l <> [] /\ w = Z.of_nat (length l) mod 2).
Proof.
  intros Hm.
  assert (Hp : player s = Z.of_nat (length l) mod 2).
  { rewrite (moves_player l _ s Hm); [done | by left]. }
  split; [done |]. intros w Hw.
  assert (Hne : l <> []).
  { intros ->. inversion Hm; subst. discriminate Hw. }
  split; [done |]. rewrite <- Hp. by eapply moves_winner_is_player.
Qed.

Lemma players_alternate_witness :
  moves [(0, 1); (1, 1)] (Nim_init [1; 1])
    = (Ok tt, {| piles := [0; 0]; player := 0; winner := Some 0 |}) /\
  0 = Z.of_nat (length [(0, 1); (1, 1)]) mod 2.
Proof.
  assert (Hm : moves [(0, 1); (1, 1)] (Nim_init [1; 1])
               = (Ok tt, {| piles := [0; 0]; player := 0; winner := Some 0 |}))
    by reflexivity.
  split; [exact Hm |].
  exact (proj1 (players_alternate [1; 1] [(0, 1); (1, 1)] _ Hm)).
Defined.

Lemma sum_nonneg (ps : list Z) :
  Forall (fun pile => 0 <= pile) ps -> 0 <= sum ps.
Proof.
  induction 1 as [| p ps Hp _ IH]; unfold sum in *; simpl; lia.
Qed.

Lemma move_takes_count (self s' : Nim) (pile count : Z) :
  move (pile, count) self = (Ok tt, s') ->
  1 <= count /\ sum (piles s') = sum (piles self) - count.
Proof.
  intros (p & c & n & Heq & _ & _ & Hl & Hc & ->)%move_ok_inv.
  inversion Heq; subst. unfold moved. simpl.
  rewrite (sum_insert _ _ n) by done. lia.
Qed.

Lemma moves_nonneg (l : list action) (s s' : Nim) :
  moves l s = (Ok tt, s') ->
  Forall (fun pile => 0 <= pile) (piles s) ->
  Forall (fun pile => 0 <= pile) (piles s').
Proof.
  revert s. induction l as [| a l IH]; intros s Hm Hnn.
  - by inversion Hm; subst.
  - apply moves_cons in Hm as (s1 & Hm1 & Hm).
    apply move_ok_effect in Hm1 as (_ & _ & _ & _ & Hnn1 & _).
    apply (IH s1); auto.
Qed.

(** X5: along any sequence of successful moves every count is at least
    1 and [sum(piles)] drops by exactly the objects taken; so the number
    of moves is at most that drop, and on non-negative piles a game
    lasts at most [sum(piles)] moves. *)
Theorem moves_take_objects (l : list action) (s s' : Nim) :
  moves l s = (Ok tt, s') ->
  Forall (fun a : action => 1 <= snd a) l /\
  sum (piles s') = sum (piles s) - sum (map snd l) /\
  Z.of_nat (length l) <= sum (piles s) - sum (piles s') /\
  (Forall (fun pile => 0 <= pile) (piles s) ->
   Z.of_nat (length l) <= sum (piles s)).
Proof.
  intros Hm.
  assert (H : Forall (fun a : action => 1 <= snd a) l /\
              sum (piles s') = sum (piles s) - sum (map snd l) /\
              Z.of_nat (length l) <= sum (map snd l)).
  { revert s Hm. induction l as [| [pile count] l IH]; intros s Hm.
    - inversion Hm; subst. unfold sum. simpl. split; [constructor | lia].
    - apply moves_cons in Hm as (s1 & Hm1 & Hm).
      apply move_takes_count in Hm1 as (Hc & Hs1).
      destruct (IH s1 Hm) as (Hall & Hsum & Hlen).
      split; [by constructor |].
      cbn [map length snd]. unfold sum in *. cbn [foldr]. lia. }
  destruct H as (Hall & Hsum & Hlen).
  split; [done |]. split; [done |]. split; [lia |].
  intros Hnn. pose proof (sum_nonneg _ (moves_nonneg l s s' Hm Hnn)). lia.
Qed.

Lemma moves_take_objects_witness :
  Forall (fun pile => 0 <= pile) (piles (Nim_init [1; 1])) /\
  Z.of_nat (length [(0, 1); (1, 1)]) <= sum (piles (Nim_init [1; 1])).
Proof.
  assert (Hnn : Forall (fun pile => 0 <= pile) (piles (Nim_init [1; 1])))
    by (repeat constructor; lia).
  split; [exact Hnn |].
  exact (proj2 (proj2 (proj2
    (moves_take_objects [(0, 1); (1, 1)] (Nim_init [1; 1])
       {| piles := [0; 0]; player := 0; winner := Some 0 |} eq_refl))) Hnn).
Defined.

(** X6: a successful move only removes available actions: every action
    available afterwards was available before, and the action that
    emptied the pile moved on is available no more. *)
Theorem move_shrinks_available_actions (self s' : Nim) (a : action) :
  move a self = (Ok tt, s') ->
  a ∈ available_actions (piles self) /\
  available_actions (piles s') ⊆ available_actions (piles self) /\
  exists n, (fst a, n) ∈ available_actions (piles self) /\
            (fst a, n) ∉ available_actions (piles s').
Proof.
  intros Hm.
  pose proof (move_ok_effect _ _ _ Hm) as (Hw & _ & Hle & _).
  split.
  { apply (move_succeeds_iff_available_aux self a Hw). by rewrite Hm. }
  split.
  { apply elem_of_subseteq. intros [i j].
    rewrite !elem_of_available_actions. intros (Hr & n' & Hg' & Hj).
    pose proof (Forall2_length _ _ _ Hle) as Hlen.
    assert (Hr0 : 0 <= i < len (piles self)) by (unfold len in *; lia).
    split; [done |].
    destruct (getitem_in_range _ _ Hr) as (x' & Hx' & Hl').
    destruct (getitem_in_range _ _ Hr0) as (x & Hx & Hl).
    exists x. split; [done |].
    pose proof (Forall2_lookup_lr _ _ _ _ _ _ Hle Hl' Hl). simplify_eq. lia. }
  destruct a as [pile count].
  apply move_success_effect_aux in Hm as (n & Hr & Hl & Hc & Hl' & Hlen).
  exists n. simpl. rewrite !elem_of_available_actions. split.
  - split; [done |].
    destruct (getitem_in_range _ _ Hr) as (x & Hx & Hlx).
    exists x. split; [done |]. simplify_eq. lia.
  - intros (Hr' & x' & Hx' & Hj).
    destruct (getitem_in_range _ _ Hr') as (y & Hy & Hly). simplify_eq. lia.
Qed.

Lemma move_shrinks_available_actions_witness :
  (2, 3) ∈ available_actions (piles (Nim_init default_initial)) /\
  available_actions (piles (snd (move (2, 3) (Nim_init default_initial))))
    ⊆ available_actions (piles (Nim_init default_initial)).
Proof.
  destruct (move_shrinks_available_actions (Nim_init default_initial)
              (snd (move (2, 3) (Nim_init default_initial))) (2, 3) eq_refl)
    as (Ha & Hsub & _).
  split; [exact Ha | exact Hsub].
Defined.

Lemma objects_max (ps : list Z) :
  Z.of_nat (objects ps) = sum (map (Z.max 0) ps).
Proof.
  induction ps as [| p ps IH]; [done |].
  cbn [objects foldr map]. fold (objects ps). unfold sum in *. cbn [foldr]. lia.
Qed.

(** X7: whatever integers the piles hold, [available_actions] has as
    many elements as the sum of the positive piles: a pile that is 0 or
    negative contributes no action. *)
Theorem available_actions_size_any (ps : list Z) :
  Z.of_nat (size (available_actions ps)) = sum (map (Z.max 0) ps).
Proof.
  unfold available_actions. rewrite size_available_actions_from.
  - rewrite size_empty. simpl. apply objects_max.
  - intros i j H. by apply not_elem_of_empty in H.
Qed.

(** * Further properties of the agent *)

Lemma foldl_best_action_value (table : gmap key Q) (state : list Z)
    (l : list action) (a0 a : action) (m : Q) :
  foldl (best_action_step table state)
    (Some a0, Some (q_or_zero table state a0)) l = (Some a, Some m) ->
  m = q_or_zero table state a /\
  foldl (best_value_step table state) (Some (q_or_zero table state a0)) l
  = Some m.
Proof.
  revert a0. induction l as [| a1 l IH]; intros a0; simpl.
  - intros H. inversion H; subst. done.
  - unfold best_action_step at 2. simpl.
    destruct (Qgtb _ _); apply IH.
Qed.

Lemma choose_action_greedy_run (self : NimAI) (state : list Z)
    (explore : bool) (rnd : Random) :
  available_actions state <> ∅ ->
  explore && Qgtb (epsilon self) (draws rnd (pos rnd)) = false ->
  exists a,
    choose_action self state explore rnd = (Ok (Some a), advance rnd) /\
    a ∈ available_actions state /\
    best_future_reward state self
    = (Ok (Some (q_or_zero (q self) state a)), self) /\
    (forall a', a' ∈ available_actions state ->
       (q_or_zero (q self) state a' <= q_or_zero (q self) state a)%Q).
Proof.
  intros Hne Hgreedy.
  unfold choose_action, best_future_reward. unfold bind, random, gets, ret.
  rewrite Hgreedy, bool_decide_eq_false_2 by done.
  destruct (elements (available_actions state)) as [| a0 l] eqn:He.
  { by apply elements_empty_inv, leibniz_equiv in He. }
  cbn [foldl]. unfold best_action_step at 2. unfold best_value_step at 2.
  cbn [snd].
  destruct (foldl_best_action_Some (q self) state l a0
              (q_or_zero (q self) state a0)) as (a & m & Hf & Ha).
  destruct (foldl_best_action_value _ _ _ _ _ _ Hf) as (-> & Hv).
  rewrite Hf, Hv. exists a. split; [done |].
  split; [apply elem_of_elements; by rewrite He |]. split; [done |].
  intros a' Ha'. apply elem_of_elements in Ha'. rewrite He in Ha'.
  destruct (foldl_best_value_Some (q self) state l
              (q_or_zero (q self) state a0)) as (m' & Hm' & Hle & Hall & _).
  assert (m' = q_or_zero (q self) state a) by congruence. subst m'.
  inversion Ha'; subst; [done | by apply Hall].
Qed.

Lemma greedy_flag (self : NimAI) (explore : bool) (rnd : Random) :
  explore = false \/ (epsilon self <= draws rnd (pos rnd))%Q ->
  explore && Qgtb (epsilon self) (draws rnd (pos rnd)) = false.
Proof.
  intros [-> | Hle]; [done |].
  apply andb_false_iff. right. unfold Qgtb.
  rewrite negb_false_iff. by apply Qle_bool_iff.
Qed.

(** X8: when an action is available and [choose_action] does not
    explore (flag off, or number drawn not below [epsilon]), it returns
    an available action whose Q-value, as [get_q_value] reads it, is the
    answer of [best_future_reward] on the same state, and no available
    action has a larger one.  One number has been drawn. *)
Theorem choose_action_greedy (self : NimAI) (state : list Z)
    (explore : bool) (rnd : Random) :
  available_actions state <> ∅ ->
  explore = false \/ (epsilon self <= draws rnd (pos rnd))%Q ->
  exists a v,
    choose_action self state explore rnd = (Ok (Some a), advance rnd) /\
    a ∈ available_actions state /\
    get_q_value state (Some a) self = (Ok v, self) /\
    best_future_reward state self = (Ok (Some v), self) /\
    (forall a', a' ∈ available_actions state ->
       exists v', get_q_value state (Some a') self = (Ok v', self) /\
                  (v' <= v)%Q).
Proof.
  intros Hne Hg%greedy_flag.
  destruct (choose_action_greedy_run self state explore rnd Hne Hg)
    as (a & Hc & Ha & Hb & Hmax).
  exists a, (q_or_zero (q self) state a).
  split; [done |]. split; [done |]. split; [apply get_q_value_eq |].
  split; [done |]. intros a' Ha'. eexists. split; [apply get_q_value_eq |].
  by apply Hmax.
Qed.

Lemma choose_action_greedy_witness :
  available_actions [0; 2] <> ∅ /\
  exists a v,
    choose_action (NimAI_init default_alpha default_epsilon) [0; 2] false zeros
    = (Ok (Some a), advance zeros) /\
    a ∈ available_actions [0; 2] /\
    get_q_value [0; 2] (Some a) (NimAI_init default_alpha default_epsilon)
    = (Ok v, NimAI_init default_alpha default_epsilon).
Proof.
  assert (Hne : available_actions [0; 2] <> ∅).
  { intros He. assert (Hin : (1, 1) ∈ available_actions [0; 2]).
    { apply elem_of_available_actions. split; [by vm_compute |].
      exists 2. split; [reflexivity | lia]. }
    rewrite He in Hin. by apply not_elem_of_empty in Hin. }
  split; [exact Hne |].
  destruct (choose_action_greedy (NimAI_init default_alpha default_epsilon)
              [0; 2] false zeros Hne (or_introl eq_refl))
    as (a & v & Hc & Ha & Hg & _).
  exists a, v. split; [exact Hc |]. split; [exact Ha | exact Hg].
Defined.

(** X9: when one available action has a Q-value strictly above that of
    every other available action, [choose_action] with the explore flag
    off returns that action, whatever the random source answers. *)
Theorem choose_action_unique_best (self : NimAI) (state : list Z)
    (rnd : Random) (best : action) :
  best ∈ available_actions state ->
  (forall a, a ∈ available_actions state -> a <> best ->
     (q_or_zero (q self) state a < q_or_zero (q self) state best)%Q) ->
  choose_action self state false rnd = (Ok (Some best), advance rnd).
Proof.
  intros Hbest Hlt.
  assert (Hne : available_actions state <> ∅).
  { intros He. rewrite He in Hbest. by apply not_elem_of_empty in Hbest. }
  destruct (choose_action_greedy_run self state false rnd Hne eq_refl)
    as (a & Hc & Ha & _ & Hmax).
  destruct (decide (a = best)) as [-> | Hab]; [done |].
  specialize (Hlt a Ha Hab). specialize (Hmax best Hbest).
  exfalso. by apply (Qlt_not_le _ _ Hlt).
Qed.

Lemma choose_action_unique_best_witness :
  (1, 2) ∈ available_actions [0; 2] /\
  choose_action favourite [0; 2] false zeros = (Ok (Some (1, 2)), advance zeros).
Proof.
  assert (Hin : (1, 2) ∈ available_actions [0; 2]).
  { apply elem_of_available_actions. split; [by vm_compute |].
    exists 2. split; [reflexivity | lia]. }
  split; [exact Hin |].
  apply (choose_action_unique_best favourite [0; 2] zeros (1, 2) Hin).
  intros [i j] Ha Hne.
  apply elem_of_available_actions in Ha as (Hr & n & Hg & Hj).
  assert (i = 0 \/ i = 1) as [-> | ->] by (unfold len in Hr; simpl in Hr; lia);
    vm_compute in Hg; inversion Hg; subst; [lia |].
  assert (j = 1) as -> by (destruct (decide (j = 2)) as [-> | ?]; [done | lia]).
  reflexivity.
Defined.

Lemma Qgtb_lt (a b : Q) : (b < a)%Q -> Qgtb a b = true.
Proof.
  intros Hlt. unfold Qgtb. rewrite negb_true_iff.
  destruct (Qle_bool a b) eqn:Hb; [| done].
  apply Qle_bool_iff in Hb. by apply Qle_not_lt in Hb.
Qed.

(** X10: on a state with an available action, the actions that
    [choose_action] explores form one list without repetition of the
    available actions, the same whatever the table and the random
    source: with the explore flag on and a number drawn below
    [epsilon], [choose_action] returns the element of that list at the
    index [random.choice] picks, and two random answers have been used.
    So every available action has an index, below the number of
    actions, for which it is the action returned. *)
Theorem choose_action_explores (state : list Z) :
  available_actions state <> ∅ ->
  exists l : list action,
    NoDup l /\ (forall a, a ∈ l <-> a ∈ available_actions state) /\
    length l = size (available_actions state) /\
    (forall self rnd,
       (draws rnd (pos rnd) < epsilon self)%Q ->
       exists a,
         l !! (picks rnd (S (pos rnd)) mod length l)%nat = Some a /\
         choose_action self state true rnd
         = (Ok (Some a), advance (advance rnd))) /\
    (forall a, a ∈ available_actions state ->
       exists k, (k < length l)%nat /\
         forall self rnd,
           (draws rnd (pos rnd) < epsilon self)%Q ->
           picks rnd (S (pos rnd)) = k ->
           choose_action self state true rnd
           = (Ok (Some a), advance (advance rnd))).
Proof.
  intros Hne. exists (elements (available_actions state)).
  assert (Hrun : forall self rnd a,
            (draws rnd (pos rnd) < epsilon self)%Q ->
            elements (available_actions state)
              !! (picks rnd (S (pos rnd))
                  mod length (elements (available_actions state)))%nat = Some a ->
            choose_action self state true rnd
            = (Ok (Some a), advance (advance rnd))).
  { intros self rnd a Hlt Hl. unfold choose_action, bind, random.
    rewrite (Qgtb_lt _ _ Hlt). simpl. unfold choice. simpl. by rewrite Hl. }
  assert (Hl : elements (available_actions state) <> []).
  { intros He. by apply elements_empty_inv, leibniz_equiv in He. }
  split; [apply NoDup_elements |].
  split; [intros a; apply elem_of_elements |].
  split; [reflexivity |]. split.
  - intros self rnd Hlt.
    destruct (lookup_lt_is_Some_2 (elements (available_actions state))
                (picks rnd (S (pos rnd))
                 mod length (elements (available_actions state)))%nat)
      as [a Ha].
    { apply Nat.mod_upper_bound. by destruct (elements _). }
    exists a. split; [done | by apply Hrun].
  - intros a Ha. apply elem_of_elements, list_elem_of_lookup_1 in Ha as [k Hk].
    pose proof (lookup_lt_Some _ _ _ Hk) as Hlen.
    exists k. split; [done |]. intros self rnd Hlt Hp. apply Hrun; [done |].
    rewrite Hp, Nat.mod_small by done. done.
Qed.

Lemma choose_action_explores_witness :
  available_actions [0; 2] <> ∅ /\
  exists l : list action,
    NoDup l /\ length l = size (available_actions [0; 2]) /\
    exists a,
      l !! (picks zeros (S (pos zeros)) mod length l)%nat = Some a /\
      choose_action (NimAI_init default_alpha default_epsilon) [0; 2] true zeros
      = (Ok (Some a), advance (advance zeros)).
Proof.
  assert (Hne : available_actions [0; 2] <> ∅).
  { intros He. assert (Hin : (1, 1) ∈ available_actions [0; 2]).
    { apply elem_of_available_actions. split; [by vm_compute |].
      exists 2. split; [reflexivity | lia]. }
    rewrite He in Hin. by apply not_elem_of_empty in Hin. }
  split; [exact Hne |].
  destruct (choose_action_explores [0; 2] Hne) as (l & Hnd & _ & Hlen & Hrun & _).
  exists l. split; [exact Hnd |]. split; [exact Hlen |].
  apply (Hrun (NimAI_init default_alpha default_epsilon) zeros). reflexivity.
Defined.

(** X11: in a game with no winner and an available action,
    [choose_action] on the piles of the game returns an action, never
    [None] and never an error, and [move] accepts it: whatever the flag,
    the table and the random source. *)
Theorem choose_action_then_move (self : NimAI) (g : Nim) (explore : bool)
    (rnd : Random) :
  winner g = None -> available_actions (piles g) <> ∅ ->
  exists a rnd' g',
    choose_action self (piles g) explore rnd = (Ok (Some a), rnd') /\
    a ∈ available_actions (piles g) /\
    move a g = (Ok tt, g').
Proof.
  intros Hw Hne.
  destruct (choose_action_legal self (piles g) explore rnd Hne)
    as (a & rnd' & Hc & Ha).
  destruct (move_legal g a Hw Ha) as (g' & Hm).
  exists a, rnd', g'. done.
Qed.

Lemma choose_action_then_move_witness :
  exists a rnd' g',
    choose_action (NimAI_init default_alpha default_epsilon)
      (piles (Nim_init [0; 2])) false zeros = (Ok (Some a), rnd') /\
    move a (Nim_init [0; 2]) = (Ok tt, g').
Proof.
  assert (Hne : available_actions (piles (Nim_init [0; 2])) <> ∅).
  { intros He. assert (Hin : (1, 1) ∈ available_actions [0; 2]).
    { apply elem_of_available_actions. split; [by vm_compute |].
      exists 2. split; [reflexivity | lia]. }
    simpl in He. rewrite He in Hin. by apply not_elem_of_empty in Hin. }
  destruct (choose_action_then_move (NimAI_init default_alpha default_epsilon)
              (Nim_init [0; 2]) false zeros eq_refl Hne)
    as (a & rnd' & g' & Hc & _ & Hm).
  exists a, rnd', g'. split; [exact Hc | exact Hm].
Defined.

Section SameAnswers.

Variables t1 t2 : gmap key Q.
Hypothesis same : forall k, or_zero (t1 !! k) = or_zero (t2 !! k).

Lemma best_value_step_same (state : list Z) (best : option Q) (a : action) :
  best_value_step t1 state best a = best_value_step t2 state best a.
Proof. unfold best_value_step, q_or_zero. by rewrite same. Qed.

Lemma best_action_step_same (state : list Z)
    (best : option action * option Q) (a : action) :
  best_action_step t1 state best a = best_action_step t2 state best a.
Proof. unfold best_action_step, q_or_zero. by rewrite same. Qed.

Lemma foldl_best_value_same (state : list Z) (l : list action)
    (best : option Q) :
  foldl (best_value_step t1 state) best l
  = foldl (best_value_step t2 state) best l.
Proof.
  revert best. induction l as [| a l IH]; intros best; simpl; [done |].
  by rewrite best_value_step_same, IH.
Qed.

Lemma foldl_best_action_same (state : list Z) (l : list action)
    (best : option action * option Q) :
  foldl (best_action_step t1 state) best l
  = foldl (best_action_step t2 state) best l.
Proof.
  revert best. induction l as [| a l IH]; intros best; simpl; [done |].
  by rewrite best_action_step_same, IH.
Qed.

End SameAnswers.

(** X12: a stored value equal to 0 is read as an absent key.  Storing
    such a value under a key that was absent changes no answer of
    [get_q_value], of [best_future_reward] or of [choose_action], on any
    state, although the key is now in the table. *)
Theorem stored_zero_reads_as_absent (self : NimAI) (k : key) (v : Q) :
  q self !! k = None -> (v == 0)%Q ->
  exists self',
    set_q k v self = (Ok tt, self') /\
    q self' !! k = Some v /\
    (forall state a,
       fst (get_q_value state a self') = fst (get_q_value state a self)) /\
    (forall state,
       fst (best_future_reward state self')
       = fst (best_future_reward state self)) /\
    (forall state explore rnd,
       choose_action self' state explore rnd
       = choose_action self state explore rnd).
Proof.
  intros Hnone Hv.
  assert (Hsame : forall k',
            or_zero (<[k := v]> (q self) !! k') = or_zero (q self !! k')).
  { intros k'. destruct (decide (k = k')) as [<- | Hne].
    - rewrite lookup_insert_eq, Hnone. simpl.
      apply truthy_false in Hv. by rewrite Hv.
    - by rewrite lookup_insert_ne. }
  exists {| q := <[k := v]> (q self); alpha := alpha self;
            epsilon := epsilon self |}.
  split; [reflexivity |]. cbn [q].
  split; [apply lookup_insert_eq |]. split; [| split].
  - intros state a. rewrite !get_q_value_eq. cbn [q fst]. by rewrite Hsame.
  - intros state. unfold best_future_reward.
    destruct (bool_decide _); [done |].
    unfold bind, gets, ret. cbn [q fst].
    by rewrite (foldl_best_value_same _ _ Hsame).
  - intros state explore rnd. unfold choose_action, bind, random. cbn [q epsilon].
    destruct (explore && _); [done |].
    by rewrite (foldl_best_action_same _ _ Hsame).
Qed.

Lemma stored_zero_reads_as_absent_witness :
  exists self',
    set_q ([1], Some (0, 1)) (0 # 2)
      (NimAI_init default_alpha default_epsilon) = (Ok tt, self') /\
    q self' !! ([1], Some (0, 1)) = Some (0 # 2) /\
    fst (get_q_value [1] (Some (0, 1)) self')
    = fst (get_q_value [1] (Some (0, 1))
             (NimAI_init default_alpha default_epsilon)).
Proof.
  destruct (stored_zero_reads_as_absent
              (NimAI_init default_alpha default_epsilon)
              ([1], Some (0, 1)) (0 # 2))
    as (self' & Hs & Hl & Hg & _).
  - apply lookup_empty.
  - reflexivity.
  - exists self'. split; [exact Hs |]. split; [exact Hl | apply Hg].
Defined.


(** * Further properties of self-play *)

(** X14: with [n <= 0] no game is played, whatever the bound on turns:
    [train(n)] prints only the end of training and returns a player with
    an empty table and the default [alpha] and [epsilon], so every
    [get_q_value] on it answers 0. *)
Theorem train_no_game (fuel : nat) (n : Z) (rnd : Random) :
  n <= 0 ->
  train fuel n rnd
  = Some (Ok (NimAI_init default_alpha default_epsilon), [DoneTraining]) /\
  forall state a,
    fst (get_q_value state a (NimAI_init default_alpha default_epsilon))
    = Ok 0%Q.
Proof.
  intros Hn. split; [| done].
  unfold train, range. replace (seqZ 0 (n - 0)) with (@nil Z); [done |].
  unfold seqZ. replace (Z.to_nat (n - 0)) with 0%nat by lia. done.
Qed.

Lemma train_no_game_witness :
  train 0 0 zeros
  = Some (Ok (NimAI_init default_alpha default_epsilon), [DoneTraining]).
Proof.
  apply (train_no_game 0 0 zeros). lia.
Defined.

(** X15: the player that [train(n)] returns, once each game is given
    its 16 turns, has the default [alpha] and [epsilon], and every key
    of its table is a position of the game, piles between 0 and the
    initial ones, with an action available in that position.  With
    [n >= 1] the table is not empty. *)
Theorem train_table (fuel : nat) (n : Z) (rnd : Random) :
  (16 <= fuel)%nat ->
  exists p out,
    train fuel n rnd = Some (Ok p, out) /\
    alpha p = default_alpha /\ epsilon p = default_epsilon /\
    (forall st a v, q p !! (st, a) = Some v ->
       Forall2 Z.le st default_initial /\ Forall (fun pile => 0 <= pile) st /\
       exists act, a = Some act /\ act ∈ available_actions st) /\
    (1 <= n -> q p <> ∅).
Proof.
  intros Hfuel. unfold train.
  destruct (training_games_played fuel (range 0 n)
              (NimAI_init default_alpha default_epsilon) rnd [] Hfuel
              NimAI_init_table_ok)
    as (p & rnd' & H & Hplayed & (Hal & Hep & Hq)).
  rewrite H. eexists _, _. split; [reflexivity |].
  split; [done |]. split; [done |]. split.
  - intros st a v Hv. apply Hq in Hv as ((? & ?) & ?). done.
  - intros Hn. apply (games_played_effect _ _ _ _ Hplayed).
    unfold range, seqZ. destruct (Z.to_nat (n - 0)) eqn:Hz; [lia | done].
Qed.

Lemma train_table_witness :
  (16 <= 16)%nat /\
  exists p out, train 16 1 zeros = Some (Ok p, out) /\ q p <> ∅.
Proof.
  assert (H16 : (16 <= 16)%nat) by lia.
  split; [exact H16 |].
  destruct (train_table 16 1 zeros H16) as (p & out & Ht & _ & _ & _ & Hq).
  exists p, out. split; [exact Ht |]. apply Hq. lia.
Defined.

(** * Properties of the interactive game *)

Lemma emit_eq (l : Line) (t : Table) : emit l t = (Ok tt, with_lines t [l]).
Proof. reflexivity. Qed.

Lemma with_lines_app (t : Table) (a b : list Line) :
  with_lines (with_lines t a) b = with_lines t (a ++ b).
Proof. unfold with_lines. simpl. by rewrite app_assoc. Qed.

Lemma with_lines_nil (t : Table) : with_lines t [] = t.
Proof. destruct t. unfold with_lines. simpl. by rewrite app_nil_r. Qed.

Lemma print_piles_eq (i : Z) (ps : list Z) (t : Table) :
  print_piles i ps t = (Ok tt, with_lines t (pile_lines i ps)).
Proof.
  revert i t. induction ps as [| pile rest IH]; intros i t; simpl.
  - by rewrite with_lines_nil.
  - unfold bind, emit, modify. rewrite IH. f_equal.
    fold (with_lines t [PileLine i pile]). by rewrite with_lines_app.
Qed.

Lemma show_piles_eq (t : Table) :
  show_piles t
  = (Ok tt,
     with_lines t ([Blank; PilesHeader] ++ pile_lines 0 (piles (t_game t))
                     ++ [Blank; Sleep 1])).
Proof.
  unfold show_piles, bind, emit, modify, gets. simpl.
  rewrite print_piles_eq. simpl. unfold with_lines. simpl. f_equal. f_equal.
  by rewrite <- !app_assoc.
Qed.

Lemma human_move_S (attempts : nat) (available : gset action) (t : Table) :
  human_move (S attempts) available t
  = if bool_decide (typed_move t 0 ∈ available)
    then Finished (Ok (typed_move t 0)) (asked t)
    else human_move attempts available (with_lines (asked t) [InvalidMove]).
Proof.
  cbn [human_move]. unfold bind, input_int, bind, emit, modify, ret. simpl.
  unfold typed_move. rewrite !Nat.add_0_r, Nat.add_1_r.
  destruct (bool_decide _); simpl.
  - unfold asked. by rewrite <- app_assoc.
  - unfold asked, with_lines. simpl. by rewrite <- !app_assoc.
Qed.

Lemma typed_move_refused (t : Table) (j : nat) :
  typed_move (with_lines (asked t) [InvalidMove]) j = typed_move t (S j).
Proof.
  unfold typed_move. simpl. f_equal; f_equal; lia.
Qed.

Lemma answered_refused (t : Table) (k : nat) :
  answered (with_lines (asked t) [InvalidMove]) k = answered t (S k).
Proof.
  unfold answered. simpl. f_equal; [lia |].
  by rewrite <- !app_assoc.
Qed.

Lemma answered_0 (t : Table) : answered t 0 = asked t.
Proof.
  unfold answered, asked. simpl. f_equal. lia.
Qed.

Lemma human_move_finished (attempts : nat) (available : gset action)
    (t t' : Table) (r : Res action) :
  human_move attempts available t = Finished r t' ->
  exists k, (k < attempts)%nat /\
    (forall j, (j < k)%nat -> typed_move t j ∉ available) /\
    typed_move t k ∈ available /\
    r = Ok (typed_move t k) /\ t' = answered t k.
Proof.
  revert t. induction attempts as [| n IH]; intros t; [discriminate |].
  rewrite human_move_S. destruct (bool_decide_reflect (typed_move t 0 ∈ available))
    as [Hin | Hout].
  - intros H. inversion H; subst. exists 0%nat.
    split; [lia |]. split; [intros j Hj; lia |]. split; [done |].
    split; [done |]. by rewrite answered_0.
  - intros (k & Hk & Hbefore & Hin & -> & ->)%IH. exists (S k).
    split; [lia |]. split.
    + intros [| j] Hj; [done |]. rewrite <- typed_move_refused. apply Hbefore. lia.
    + rewrite <- typed_move_refused, <- answered_refused. done.
Qed.

Lemma human_move_accepts (attempts : nat) (available : gset action)
    (t : Table) (k : nat) :
  (k < attempts)%nat ->
  (forall j, (j < k)%nat -> typed_move t j ∉ available) ->
  typed_move t k ∈ available ->
  human_move attempts available t = Finished (Ok (typed_move t k)) (answered t k).
Proof.
  revert t k. induction attempts as [| n IH]; intros t k Hk Hbefore Hin; [lia |].
  rewrite human_move_S. destruct k as [| k].
  - rewrite bool_decide_eq_true_2 by done. by rewrite answered_0.
  - rewrite bool_decide_eq_false_2 by (apply Hbefore; lia).
    rewrite <- typed_move_refused, <- answered_refused. apply IH; [lia | |].
    + intros j Hj. rewrite typed_move_refused. apply Hbefore. lia.
    + by rewrite typed_move_refused.
Qed.

Lemma human_move_turns (attempts : nat) (available : gset action) (t : Table) :
  human_move attempts available t <> NoMoreTurns.
Proof.
  revert t. induction attempts as [| n IH]; intros t; [discriminate |].
  rewrite human_move_S. destruct (bool_decide _); [discriminate | apply IH].
Qed.

Lemma human_move_refuses (attempts : nat) (available : gset action)
    (t : Table) :
  human_move attempts available t = NoLegalInput ->
  forall j, (j < attempts)%nat -> typed_move t j ∉ available.
Proof.
  revert t. induction attempts as [| n IH]; intros t Hno j Hj; [lia |].
  rewrite human_move_S in Hno.
  destruct (bool_decide_reflect (typed_move t 0 ∈ available)) as [Hin | Hout];
    [discriminate |].
  destruct j as [| j]; [done |].
  rewrite <- typed_move_refused. apply (IH _ Hno). lia.
Qed.

(** X16: the move that [play] takes from the human is the first one
    typed that is in [available_actions]: each move typed before it was
    refused with "Invalid move, try again.", after which [play] asked
    again, and the game was not touched.  With [attempts] moves typed
    and none available, the loop is still asking. *)
Theorem human_move_first_available (attempts : nat) (available : gset action)
    (t : Table) :
  (forall r t',
     human_move attempts available t = Finished r t' <->
     exists k, (k < attempts)%nat /\
       (forall j, (j < k)%nat -> typed_move t j ∉ available) /\
       typed_move t k ∈ available /\
       r = Ok (typed_move t k) /\ t' = answered t k) /\
  (human_move attempts available t = NoLegalInput <->
   forall j, (j < attempts)%nat -> typed_move t j ∉ available) /\
  (forall k, t_game (answered t k) = t_game t /\
             t_random (answered t k) = t_random t).
Proof.
  split; [| split; [| done]].
  - intros r t'. split; [apply human_move_finished |].
    intros (k & Hk & Hbefore & Hin & -> & ->). by apply human_move_accepts.
  - split.
    + by apply human_move_refuses.
    + intros Hall. destruct (human_move attempts available t) as [r t' | |] eqn:H.
      * apply human_move_finished in H as (k & Hk & _ & Hin & _).
        by apply Hall in Hin.
      * by apply human_move_turns in H.
      * done.
Qed.

Lemma ai_move_run (ai : NimAI) (t : Table) :
  playing t ->
  exists a rnd',
    choose_action ai (piles (t_game t)) false (t_random t) = (Ok (Some a), rnd') /\
    a ∈ available_actions (piles (t_game t)) /\
    ai_move ai t
    = (Ok a, {| t_game := t_game t; t_random := rnd'; t_typed := t_typed t;
                t_read := t_read t;
                t_lines := t_lines t ++ [AIsTurn; AIChose (snd a) (fst a)] |}).
Proof.
  intros (Hw & Hnn & Hnz & _).
  destruct (choose_action_legal ai (piles (t_game t)) false (t_random t))
    as (a & rnd' & Hc & Ha); [by apply actions_nonempty |].
  exists a, rnd'. split; [done |]. split; [done |].
  unfold ai_move.
  erewrite bind_ok; [| apply emit_eq]. rewrite bind_gets.
  erewrite bind_ok;
    [| unfold on_random; cbn [with_lines t_game t_random]; rewrite Hc;
       reflexivity].
  destruct a as [pile count].
  erewrite bind_ok; [| apply emit_eq].
  unfold ret, with_lines. cbn. by rewrite <- app_assoc.
Qed.

Lemma finish_turn_run (human_player : Z) (a : action) (t : Table) :
  winner (t_game t) = None -> a ∈ available_actions (piles (t_game t)) ->
  exists g',
    move a (t_game t) = (Ok tt, g') /\
    finish_turn human_player a t
    = match winner g' with
      | Some w =>
          (Ok true,
           {| t_game := g'; t_random := t_random t; t_typed := t_typed t;
              t_read := t_read t;
              t_lines := t_lines t
                ++ [Blank; GameOver;
                    WinnerIs (if w =? human_player then "Human" else "AI")] |})
      | None =>
          (Ok false,
           {| t_game := g'; t_random := t_random t; t_typed := t_typed t;
              t_read := t_read t; t_lines := t_lines t |})
      end.
Proof.
  intros Hw Ha. destruct (move_legal _ _ Hw Ha) as (g' & Hm).
  exists g'. split; [done |].
  unfold finish_turn. unfold bind, on_game. rewrite Hm. unfold gets. simpl.
  destruct (winner g'); [| done].
  unfold emit, modify, ret. simpl. by rewrite <- !app_assoc.
Qed.

Lemma finish_turn_spec (human_player : Z) (a : action) (t : Table) :
  playing t -> a ∈ available_actions (piles (t_game t)) ->
  exists b t',
    finish_turn human_player a t = (Ok b, t') /\
    move a (t_game t) = (Ok tt, t_game t') /\
    (b = false -> playing t') /\
    (b = true -> ended human_player t').
Proof.
  intros (Hw & Hnn & Hnz & Hp) Ha.
  destruct (finish_turn_run human_player a t Hw Ha) as (g' & Hm & Hf).
  pose proof (move_ok_effect _ _ _ Hm) as (_ & Hiff & _ & _ & Hnn' & Hp' & Hwin).
  destruct (winner g') as [w |] eqn:Hw'.
  - eexists true, _. split; [exact Hf |]. simpl. split; [done |].
    split; [done |]. intros _. exists w, (t_lines t). simpl.
    split; [done |]. split; [by apply Hwin |]. split; [by apply Hiff | done].
  - eexists false, _. split; [exact Hf |]. simpl. split; [done |].
    split; [| done]. intros _. unfold playing. simpl.
    split; [done |]. split; [by apply Hnn' |].
    split; [intros Hz; by apply Hiff in Hz |].
    rewrite Hp'. unfold other_player. destruct (_ =? _); auto.
Qed.

Lemma with_lines_playing (t : Table) (ls : list Line) :
  playing t -> playing (with_lines t ls).
Proof. done. Qed.

Lemma play_turn_spec (attempts : nat) (ai : NimAI) (human_player : Z)
    (t : Table) :
  playing t ->
  match play_turn attempts ai human_player t with
  | Finished (Ok b) t' =>
      (exists a, move a (t_game t) = (Ok tt, t_game t')) /\
      (b = false -> playing t') /\ (b = true -> ended human_player t')
  | Finished (Raise _) _ => False
  | NoMoreTurns => False
  | NoLegalInput => player (t_game t) = human_player
  end.
Proof.
  intros Hplay. unfold play_turn. rewrite show_piles_eq.
  set (t1 := with_lines t _).
  assert (Hplay1 : playing t1) by by apply with_lines_playing.
  change (t_game t1) with (t_game t).
  destruct (Z.eqb_spec (player (t_game t)) human_player) as [Hh | Hai].
  - destruct (human_move attempts _ _) as [r t2 | |] eqn:Hhm.
    + apply human_move_finished in Hhm as (k & _ & _ & Hin & -> & ->).
      set (t2 := answered _ k) in *.
      assert (Hplay2 : playing t2) by done.
      destruct (finish_turn_spec human_player (typed_move (snd (emit YourTurn t1)) k)
                  t2 Hplay2 Hin) as (b & t3 & Hf & Hm & Hb).
      rewrite Hf. split; [eauto | done].
    + by apply human_move_turns in Hhm.
    + done.
  - destruct (ai_move_run ai t1 Hplay1) as (a & rnd' & _ & Ha & Hai').
    rewrite Hai'.
    match goal with |- context [finish_turn _ _ ?t2] => set (t2' := t2) end.
    assert (Hplay2 : playing t2') by done.
    destruct (finish_turn_spec human_player a t2' Hplay2 Ha) as (b & t3 & Hf & Hm & Hb).
    rewrite Hf. split; [eauto | done].
Qed.

Lemma play_loop_spec (turns attempts : nat) (ai : NimAI) (human_player : Z)
    (t : Table) :
  playing t ->
  match play_loop turns attempts ai human_player t with
  | Finished r t' => r = Ok tt /\ ended human_player t'
  | NoMoreTurns => Z.of_nat turns < sum (piles (t_game t))
  | NoLegalInput => human_player = 0 \/ human_player = 1
  end.
Proof.
  revert t. induction turns as [| n IH]; intros t Hplay.
  - simpl. destruct Hplay as (_ & Hnn & Hnz & _).
    pose proof (sum_pos _ Hnn Hnz). lia.
  - cbn [play_loop].
    pose proof (play_turn_spec attempts ai human_player t Hplay) as Hturn.
    destruct (play_turn attempts ai human_player t) as [[[] | e] t' | |];
      try done.
    + destruct Hturn as (_ & _ & He). split; [done | by apply He].
    + destruct Hturn as ((a & Hm) & Hp' & _).
      specialize (IH t' (Hp' eq_refl)).
      destruct (play_loop n attempts ai human_player t'); try done.
      apply move_ok_effect in Hm as (_ & _ & _ & Hlt & _). lia.
    + destruct Hplay as (_ & _ & _ & Hp). by rewrite <- Hturn.
Qed.

Lemma new_table_playing (rnd : Random) (typed : nat -> Z) :
  playing (new_table rnd typed).
Proof.
  unfold playing, new_table. simpl. split; [done |].
  split; [repeat constructor; lia |]. split; [| by left].
  intros H. by inversion H.
Qed.

(** X17: [play] never raises, whatever the table of the AI, the side of
    the human, the random source and the integers the human types: it
    only passes to [move] actions that [move] accepts.  When it returns
    the game is won, every pile is empty, and its last three lines are a
    blank line, "GAME OVER" and "Winner is Human" when the winner is
    [human_player], "Winner is AI" otherwise.  The winner is the player
    whose turn it would be. *)
Theorem play_outcome (turns attempts : nat) (ai : NimAI)
    (human_player : option Z) (rnd : Random) (typed : nat -> Z)
    (r : Res unit) (t' : Table) :
  play turns attempts ai human_player rnd typed = Finished r t' ->
  r = Ok tt /\
  exists h, fst (choose_side human_player rnd) = Ok h /\ ended h t'.
Proof.
  unfold play.
  destruct (choose_side human_player rnd) as [[h | e] rnd'] eqn:Hside.
  - intros Hp.
    pose proof (play_loop_spec turns attempts ai h (new_table rnd' typed)
                  (new_table_playing rnd' typed)) as Hspec.
    rewrite Hp in Hspec. destruct Hspec as [-> He]. split; [done |].
    exists h. done.
  - destruct human_player; discriminate Hside.
Qed.

Lemma play_outcome_witness :
  exists t',
    play 16 1 (NimAI_init default_alpha default_epsilon) (Some 2) zeros
      (fun _ => 0) = Finished (Ok tt) t' /\
    ended 2 t'.
Proof.
  eexists. split; [vm_compute; reflexivity |].
  match goal with
  | |- ended _ ?t =>
      assert (Hp : play 16 1 (NimAI_init default_alpha default_epsilon)
                     (Some 2) zeros (fun _ => 0) = Finished (Ok tt) t)
        by (vm_compute; reflexivity);
      destruct (play_outcome _ _ _ _ _ _ _ _ Hp) as (_ & h & Hh & He)
  end.
  inversion Hh; subst. exact He.
Defined.

(** X18: a game of [play] takes at most 16 turns, one per object of the
    initial piles at least: given 16 turns or more, [play] is never cut
    for lack of turns; it returns unless the human used up the attempts
    allowed for one move.  That can only happen when [human_player] is 0
    or 1, as it is when [play] draws it: with another value the AI plays
    both sides and [play] returns. *)
Theorem play_within_16_turns (turns attempts : nat) (ai : NimAI)
    (human_player : option Z) (rnd : Random) (typed : nat -> Z) :
  (16 <= turns)%nat ->
  play turns attempts ai human_player rnd typed <> NoMoreTurns /\
  (forall h, human_player = Some h -> h <> 0 -> h <> 1 ->
     exists t', play turns attempts ai human_player rnd typed
                = Finished (Ok tt) t' /\ ended h t') /\
  (human_player = None ->
   exists h, fst (choose_side human_player rnd) = Ok h /\ (h = 0 \/ h = 1)).
Proof.
  intros Hturns.
  assert (Hspec : forall h rnd',
            match play_loop turns attempts ai h (new_table rnd' typed) with
            | Finished r t' => r = Ok tt /\ ended h t'
            | NoMoreTurns => False
            | NoLegalInput => h = 0 \/ h = 1
            end).
  { intros h rnd'.
    pose proof (play_loop_spec turns attempts ai h (new_table rnd' typed)
                  (new_table_playing rnd' typed)) as Hspec.
    destruct (play_loop _ _ _ _ _); try done.
    change (sum (piles (t_game (new_table rnd' typed)))) with 16 in Hspec.
    lia. }
  split; [| split].
  - unfold play. destruct (choose_side human_player rnd) as [[h | e] rnd'].
    + specialize (Hspec h rnd'). by destruct (play_loop _ _ _ _ _).
    + discriminate.
  - intros h -> H0 H1. unfold play. simpl. unfold ret.
    specialize (Hspec h rnd).
    destruct (play_loop _ _ _ _ _) as [r t' | |]; [| done | lia].
    destruct Hspec as [-> He]. eauto.
  - intros ->. unfold choose_side, randint. cbn [fst].
    eexists. split; [reflexivity |]. change (1 - 0 + 1) with 2.
    pose proof (Z.mod_pos_bound (Z.of_nat (picks rnd (pos rnd))) 2). lia.
Qed.

Lemma play_within_16_turns_witness :
  (16 <= 16)%nat /\
  play 16 1 (NimAI_init default_alpha default_epsilon) None zeros (fun _ => 0)
  <> NoMoreTurns.
Proof.
  assert (H16 : (16 <= 16)%nat) by lia.
  split; [exact H16 |].
  exact (proj1 (play_within_16_turns 16 1
                  (NimAI_init default_alpha default_epsilon) None zeros
                  (fun _ => 0) H16)).
Defined.
